(** * seed: a Cloud Foundry CLI plugin that provisions and tears down
      organizations, spaces, applications, services and service brokers
      from a manifest (seed.go).

    The plugin talks to the platform only through the CLI connection
    ([CliCommand], [CliCommandWithoutTerminalOutput]) and to the machine
    through a few os / exec / ioutil calls.  Every such call is recorded as
    an [Event]; what the outside world answers is a parameter ([World]) that
    may depend on everything that happened before.  The Go methods on
    [*SeedRepo] become computations in a small monad [M] that threads the
    repo (the pointer receiver), reads the history and writes the events. *)

From Stdlib Require Import ZArith String List.
From stdpp Require Import base decidable option list strings.
Import ListNotations.
Local Open Scope string_scope.
Local Open Scope list_scope.

(** ** Data model *)

(** Go's [error] values: only their message matters here. *)
Definition error := string.

(** Modelled from the spec: the manifest struct declarations
    (SeederManifest, Organization, Space, deployApp, Service, ServiceBroker)
    are declared in a file that is not among the sources; the fields are the
    ones seed.go selects, all strings or slices as the spec's data model
    says.  [ServiceBroker] is a comparable struct (seed.go compares it with
    [ServiceBroker{}]). *)
Module ServiceBroker.
Record t := mk { Name : string; Username : string; Password : string; Url : string }.
Definition empty : t := mk "" "" "" "".
Definition with_Url (b : t) (url : string) : t :=
  mk (Name b) (Username b) (Password b) url.
#[global] Instance eq_dec : EqDecision t.
Proof. solve_decision. Defined.
End ServiceBroker.

Module Service.
Record t := mk { Name : string; Service : string; Plan : string; Org : string }.
End Service.

(** The Go struct type [deployApp] (the method of the same name is
    [deployApp] below). *)
Module App.
Record t := mk {
  Name : string; Repo : string; Path : string; Disk : string;
  Memory : string; Instances : string; Hostname : string; Domain : string;
  Buildpack : string; Manifest : string;
  ServiceBroker : ServiceBroker.t;
  ServiceAccess : list Service.t }.
Definition with_ServiceBroker (a : t) (b : ServiceBroker.t) : t :=
  mk (Name a) (Repo a) (Path a) (Disk a) (Memory a) (Instances a)
     (Hostname a) (Domain a) (Buildpack a) (Manifest a) b (ServiceAccess a).
End App.

Module Space.
Record t := mk { Name : string; Apps : list App.t; Services : list Service.t }.
End Space.

Module Organization.
Record t := mk { Name : string; Spaces : list Space.t }.
End Organization.

Module SeederManifest.
Record t := mk { Organizations : list Organization.t }.
Definition zero : t := mk [].
End SeederManifest.

(** [SeedRepo]: the [conn] field is the outside world (see [World]). *)
Module SeedRepo.
Record t := mk { fileName : string; Manifest : SeederManifest.t }.
End SeedRepo.

(** The parts of the platform's JSON answers that seed.go reads
    (cftype.RetrieveAParticularApp, cftype.ListAllRoutesForTheApp,
    cftype.RetrieveAParticularDomain, resources.PaginatedApplicationResources). *)
Module RetrieveAParticularApp.
Record entity := mkEntity { Name : string; RoutesURL : string }.
Record t := mk { Entity : entity }.
End RetrieveAParticularApp.

Module Route.
Record entity := mkEntity { Host : string; DomainURL : string }.
Record t := mk { Entity : entity }.
End Route.

Module ListAllRoutesForTheApp.
Record t := mk { TotalResults : Z; Resources : list Route.t }.
End ListAllRoutesForTheApp.

Module RetrieveAParticularDomain.
Record entity := mkEntity { Name : string }.
Record t := mk { Entity : entity }.
End RetrieveAParticularDomain.

Module ApplicationResource.
Record metadata := mkMetadata { Guid : string }.
Record resource := mkResource { Metadata : metadata }.
Record t := mk { Resource : resource }.
End ApplicationResource.

Module PaginatedApplicationResources.
Record t := mk { Resources : list ApplicationResource.t }.
End PaginatedApplicationResources.

(** ** The outside world *)

(** One constructor per call that leaves the process. *)
Inductive Event : Type :=
| CliCommand (args : list string)
| CliCommandWithoutTerminalOutput (args : list string)
| SpaceFields                       (* core_config repository: read the targeted space *)
| Getwd
| MkdirAll (path : string)
| ReadDir (path : string)
| LookPath (file : string)
| CommandRun (name : string) (args : list string)
| ReadFile (name : string)
| Stdout (line : string).

(** What the world answers, given the events so far.  Go's [(v, err)]
    pairs are kept as pairs; a nil error is [None]. *)
Record World := {
  reply_CliCommand : list Event -> list string -> list string * option error;
  reply_CliCommandWithoutTerminalOutput :
    list Event -> list string -> list string * option error;
  (* the repository built with [fatalIf] as error handler: a read
     failure is handed to [fatalIf] *)
  reply_SpaceFields : list Event -> string + error;
  reply_Getwd : list Event -> string;
  (* files, _ := ioutil.ReadDir(..): no entries on failure *)
  reply_ReadDir : list Event -> string -> list string;
  reply_LookPath : list Event -> string -> string * option error;
  reply_Run : list Event -> string -> list string -> option error;
  reply_ReadFile : list Event -> string -> string * option error }.

(** The decoders.  [json.Unmarshal(data, &p)] with [p] a pointer to a
    fresh struct fills the struct ([Some]), leaves it at its zero value when
    the text is not JSON, and sets [p] itself to nil for the JSON literal
    [null] ([None]); seed.go drops the error in all three cases. *)
Record Codec := {
  yaml_Unmarshal : string -> SeederManifest.t * option error;
  json_PaginatedApplicationResources : string -> option PaginatedApplicationResources.t;
  json_RetrieveAParticularApp : string -> option RetrieveAParticularApp.t;
  json_ListAllRoutesForTheApp : string -> option ListAllRoutesForTheApp.t;
  json_RetrieveAParticularDomain : string -> option RetrieveAParticularDomain.t }.

(** ** The monad *)

(** A call returns, or the process ends: [os.Exit] or a run-time panic. *)
Inductive Outcome (A : Type) : Type :=
| Returned (a : A)
| Exited (code : Z)
| Panicked (msg : string).
Arguments Returned {A} a.
Arguments Exited {A} code.
Arguments Panicked {A} msg.

#[global] Instance Outcome_eq_dec {A} `{EqDecision A} : EqDecision (Outcome A).
Proof. solve_decision. Defined.

Record Res (A : Type) : Type := mkRes {
  outcome : Outcome A;
  store : SeedRepo.t;
  emitted : list Event }.
Arguments mkRes {A} _ _ _.
Arguments outcome {A} _.
Arguments store {A} _.
Arguments emitted {A} _.

(** [m repo history]: the repo after the call and the events it added. *)
Definition M (A : Type) : Type := SeedRepo.t -> list Event -> Res A.

Definition ret {A} (a : A) : M A := fun r _ => mkRes (Returned a) r [].

Definition bind {A B} (m : M A) (f : A -> M B) : M B := fun r h =>
  let x := m r h in
  match outcome x with
  | Returned a =>
      let y := f a (store x) (h ++ emitted x) in
      mkRes (outcome y) (store y) (emitted x ++ emitted y)
  | Exited c => mkRes (Exited c) (store x) (emitted x)
  | Panicked msg => mkRes (Panicked msg) (store x) (emitted x)
  end.

#[global] Instance M_ret : MRet M := @ret.
#[global] Instance M_bind : MBind M := fun A B f m => bind m f.

Definition call {A} (e : Event) (reply : list Event -> A) : M A :=
  fun r h => mkRes (Returned (reply h)) r [e].
Definition os_Exit {A} (code : Z) : M A := fun r _ => mkRes (Exited code) r [].
Definition panic {A} (msg : string) : M A := fun r _ => mkRes (Panicked msg) r [].
Definition getRepo : M SeedRepo.t := fun r _ => mkRes (Returned r) r [].
Definition putRepo (r' : SeedRepo.t) : M unit := fun _ _ => mkRes (Returned tt) r' [].

(** [for _, x := range l { if err := body(x); err != nil { return err } };
    return nil] *)
Fixpoint forRange {A} (l : list A) (body : A -> M (option error)) : M (option error) :=
  match l with
  | [] => ret None
  | x :: l' =>
      bind (body x) (fun err =>
        match err with
        | Some e => ret (Some e)
        | None => forRange l' body
        end)
  end.

(** Dereferencing a pointer that [json.Unmarshal] may have set to nil. *)
Definition deref {A} (p : option A) : M A :=
  match p with
  | Some a => ret a
  | None => panic "invalid memory address or nil pointer dereference"
  end.

(** [l[0]] *)
Definition index0 {A} (l : list A) : M A :=
  match l with
  | a :: _ => ret a
  | [] => panic "index out of range"
  end.

(** [if s != "" { args = append(args, flag, s) }] *)
Definition appendFlag (args : list string) (flag s : string) : list string :=
  if decide (s = "") then args else args ++ [flag; s].

(** fmt.Sprintf("/v2/spaces/%v/apps?q=name:%v&inline-relations-depth=1",
    spaceGUID, appName) *)
Definition appQuery (spaceGUID appName : string) : string :=
  "/v2/spaces/" +:+ spaceGUID +:+ "/apps?q=name:" +:+ appName
  +:+ "&inline-relations-depth=1".

(** ** The plugin *)

Section Plugin.

Variable W : World.
Variable C : Codec.

(** repo.conn.CliCommand(args...) *)
Definition conn_CliCommand (args : list string) : M (list string * option error) :=
  call (CliCommand args) (fun h => reply_CliCommand W h args).

(** repo.conn.CliCommandWithoutTerminalOutput(args...) *)
Definition conn_CliCommandWithoutTerminalOutput (args : list string)
  : M (list string * option error) :=
  call (CliCommandWithoutTerminalOutput args)
       (fun h => reply_CliCommandWithoutTerminalOutput W h args).

Definition println (line : string) : M unit := call (Stdout line) (fun _ => tt).

Definition fatalIf (err : option error) : M unit :=
  match err with
  | Some e => println ("error: " +:+ e);; os_Exit 1
  | None => mret tt
  end.

(** confRepo := core_config.NewRepositoryFromFilepath(.., fatalIf);
    confRepo.SpaceFields().Guid *)
Definition confRepo_SpaceFields_Guid : M string :=
  r ← call SpaceFields (reply_SpaceFields W);
  match r with
  | inl guid => mret guid
  | inr err => fatalIf (Some err);; mret ""
  end.

Definition readManifest : M (option error) :=
  repo ← getRepo;
  '(file, err) ← call (ReadFile (SeedRepo.fileName repo))
                      (fun h => reply_ReadFile W h (SeedRepo.fileName repo));
  match err with
  | Some e => mret (Some e)
  | None =>
      putRepo (SeedRepo.mk (SeedRepo.fileName repo) SeederManifest.zero);;
      let '(manifest, err) := yaml_Unmarshal C file in
      putRepo (SeedRepo.mk (SeedRepo.fileName repo) manifest);;
      match err with
      | Some e => mret (Some e)
      | None => mret None
      end
  end.

Definition createOrganizations : M (option error) :=
  repo ← getRepo;
  forRange (SeederManifest.Organizations (SeedRepo.Manifest repo)) (fun org =>
    '(_, err) ← conn_CliCommand ["create-org"; Organization.Name org];
    mret err).

Definition deleteOrganizations : M (option error) :=
  repo ← getRepo;
  forRange (SeederManifest.Organizations (SeedRepo.Manifest repo)) (fun org =>
    '(_, err) ← conn_CliCommand ["delete-org"; Organization.Name org; "-f"];
    mret err).

Definition createSpaces : M (option error) :=
  repo ← getRepo;
  forRange (SeederManifest.Organizations (SeedRepo.Manifest repo)) (fun org =>
    conn_CliCommand ["target"; "-o"; Organization.Name org];;
    forRange (Organization.Spaces org) (fun space =>
      '(_, err) ← conn_CliCommand ["create-space"; Space.Name space];
      mret err)).

Definition deleteSpaces : M (option error) :=
  repo ← getRepo;
  forRange (SeederManifest.Organizations (SeedRepo.Manifest repo)) (fun org =>
    conn_CliCommand ["target"; "-o"; Organization.Name org];;
    forRange (Organization.Spaces org) (fun space =>
      '(_, err) ← conn_CliCommand ["delete-space"; Space.Name space; "-f"];
      mret err)).

Definition createServices : M (option error) :=
  repo ← getRepo;
  forRange (SeederManifest.Organizations (SeedRepo.Manifest repo)) (fun org =>
    forRange (Organization.Spaces org) (fun space =>
      conn_CliCommand ["target"; "-o"; Organization.Name org; "-s"; Space.Name space];;
      forRange (Space.Services space) (fun service =>
        '(_, err) ← conn_CliCommand ["create-service"; Service.Service service;
                                     Service.Plan service; Service.Name service];
        mret err))).

Definition deleteServices : M (option error) :=
  repo ← getRepo;
  forRange (SeederManifest.Organizations (SeedRepo.Manifest repo)) (fun org =>
    forRange (Organization.Spaces org) (fun space =>
      conn_CliCommand ["target"; "-o"; Organization.Name org; "-s"; Space.Name space];;
      forRange (Space.Services space) (fun service =>
        '(_, err) ← conn_CliCommand ["delete-service"; Service.Name service; "-f"];
        mret err))).

(** DeleteApp deletes a single app *)
Definition deleteApp (app : App.t) : M (option error) :=
  '(_, err) ← conn_CliCommand ["delete"; App.Name app; "-f"; "-r"];
  match err with
  | Some e => mret (Some e)
  | None => mret None
  end.

(** The tail of [deployApp] that both source branches fall into: the
    optional flags, then the push, whose result is dropped. *)
Definition pushWith (app : App.t) (args : list string) : M (option error) :=
  let args := appendFlag args "-k" (App.Disk app) in
  let args := appendFlag args "-m" (App.Memory app) in
  let args := appendFlag args "-i" (App.Instances app) in
  let args := appendFlag args "-n" (App.Hostname app) in
  let args := appendFlag args "-d" (App.Domain app) in
  let args := appendFlag args "-b" (App.Buildpack app) in
  let args := appendFlag args "-f" (App.Manifest app) in
  conn_CliCommand args;;
  mret None.

(** deployApp deploys a single app *)
Definition deployApp (app : App.t) : M (option error) :=
  let args := ["push"; App.Name app] in
  if decide (App.Repo app ≠ "") then
    wd ← call Getwd (reply_Getwd W);
    let appPath := wd +:+ "/apps/" +:+ App.Name app in
    call (MkdirAll appPath) (fun _ => tt);;
    files ← call (ReadDir appPath) (fun h => reply_ReadDir W h appPath);
    if decide (length files = 0) then
      '(gitPath, err) ← call (LookPath "git") (fun h => reply_LookPath W h "git");
      match err with
      | Some e => mret (Some e)
      | None =>
          err ← call (CommandRun gitPath ["clone"; App.Repo app; appPath])
                     (fun h => reply_Run W h gitPath ["clone"; App.Repo app; appPath]);
          match err with
          | Some _ => mret None
          | None => pushWith app (args ++ ["-p"; appPath])
          end
      end
    else pushWith app (args ++ ["-p"; appPath])
  else if decide (App.Path app ≠ "") then
    pushWith app (args ++ ["-p"; App.Path app])
  else
    mret (Some ("App need repo or path " +:+ App.Name app)).

Definition findAppGUID (spaceGUID appName : string) : M string :=
  let appQuery := appQuery spaceGUID appName in
  '(output, _) ← conn_CliCommandWithoutTerminalOutput ["curl"; appQuery];
  res ← deref (json_PaginatedApplicationResources C (String.concat "" output));
  first ← index0 (PaginatedApplicationResources.Resources res);
  mret (ApplicationResource.Guid
          (ApplicationResource.Metadata (ApplicationResource.Resource first))).

Definition findApp (appGUID : string) : M (option RetrieveAParticularApp.t) :=
  '(output, _) ← conn_CliCommandWithoutTerminalOutput ["curl"; "/v2/apps/" +:+ appGUID];
  mret (json_RetrieveAParticularApp C (String.concat "" output)).

Definition getAppInfo (app : App.t) : M (option RetrieveAParticularApp.t) :=
  spaceGUID ← confRepo_SpaceFields_Guid;
  appGUID ← findAppGUID spaceGUID (App.Name app);
  findApp appGUID.

Definition firstAppRoute (app : option RetrieveAParticularApp.t)
  : M (string * option error) :=
  a ← deref app;
  '(output, _) ← conn_CliCommandWithoutTerminalOutput
                   ["curl"; RetrieveAParticularApp.RoutesURL (RetrieveAParticularApp.Entity a)];
  routes ← deref (json_ListAllRoutesForTheApp C (String.concat "" output));
  if decide (ListAllRoutesForTheApp.TotalResults routes = 0%Z) then
    mret ("", Some ("App '" +:+ RetrieveAParticularApp.Name (RetrieveAParticularApp.Entity a)
                    +:+ "' has no routes"))
  else
    route ← index0 (ListAllRoutesForTheApp.Resources routes);
    '(output, _) ← conn_CliCommandWithoutTerminalOutput
                     ["curl"; Route.DomainURL (Route.Entity route)];
    domain ← deref (json_RetrieveAParticularDomain C (String.concat "" output));
    if decide (Route.Host (Route.Entity route) ≠ "") then
      mret (Route.Host (Route.Entity route) +:+ "."
            +:+ RetrieveAParticularDomain.Name (RetrieveAParticularDomain.Entity domain), None)
    else
      mret (RetrieveAParticularDomain.Name (RetrieveAParticularDomain.Entity domain), None).

Definition createServiceBroker (broker : ServiceBroker.t) : M (option error) :=
  let args := ["create-service-broker"; ServiceBroker.Name broker;
               ServiceBroker.Username broker; ServiceBroker.Password broker;
               ServiceBroker.Url broker] in
  '(_, err) ← conn_CliCommand args;
  mret err.

Definition deleteServiceBroker (broker : ServiceBroker.t) : M (option error) :=
  let args := ["delete-service-broker"; ServiceBroker.Name broker; "-f"] in
  '(_, err) ← conn_CliCommand args;
  mret err.

Definition enableServiceAccess (service : Service.t) : M (option error) :=
  let args := ["enable-service-access"; Service.Service service] in
  let args := appendFlag args "-p" (Service.Plan service) in
  let args := appendFlag args "-o" (Service.Org service) in
  '(_, err) ← conn_CliCommand args;
  mret err.

Definition disableServiceAccess (service : Service.t) : M (option error) :=
  let args := ["disable-service-access"; Service.Service service] in
  let args := appendFlag args "-p" (Service.Plan service) in
  let args := appendFlag args "-o" (Service.Org service) in
  '(_, err) ← conn_CliCommand args;
  mret err.

(** [app] is the callee's own copy of the struct: the assignment to
    [app.ServiceBroker.Url] changes that copy. *)
Definition setAppAsService (app : App.t) : M (option error) :=
  appInfo ← getAppInfo app;
  '(appRoute, err) ← firstAppRoute appInfo;
  match err with
  | Some e => mret (Some e)
  | None =>
      let app := App.with_ServiceBroker app
                   (ServiceBroker.with_Url (App.ServiceBroker app) ("https://" +:+ appRoute)) in
      err ← createServiceBroker (App.ServiceBroker app);
      match err with
      | Some e => mret (Some e)
      | None => forRange (App.ServiceAccess app) enableServiceAccess
      end
  end.

Definition deleteAppAsService (app : App.t) : M (option error) :=
  appInfo ← getAppInfo app;
  '(appRoute, err) ← firstAppRoute appInfo;
  match err with
  | Some e => mret (Some e)
  | None =>
      let app := App.with_ServiceBroker app
                   (ServiceBroker.with_Url (App.ServiceBroker app) ("https://" +:+ appRoute)) in
      err ← forRange (App.ServiceAccess app) disableServiceAccess;
      match err with
      | Some e => mret (Some e)
      | None =>
          err ← deleteServiceBroker (App.ServiceBroker app);
          match err with
          | Some e => mret (Some e)
          | None => mret None
          end
      end
  end.

Definition createApps : M (option error) :=
  repo ← getRepo;
  forRange (SeederManifest.Organizations (SeedRepo.Manifest repo)) (fun org =>
    forRange (Organization.Spaces org) (fun space =>
      conn_CliCommand ["target"; "-o"; Organization.Name org; "-s"; Space.Name space];;
      forRange (Space.Apps space) (fun app =>
        err ← deployApp app;
        match err with
        | Some e => mret (Some e)
        | None =>
            if decide (App.ServiceBroker app ≠ ServiceBroker.empty) then
              println "setting app as service";;
              setAppAsService app
            else mret None
        end))).

Definition deleteApps : M (option error) :=
  repo ← getRepo;
  forRange (SeederManifest.Organizations (SeedRepo.Manifest repo)) (fun org =>
    forRange (Organization.Spaces org) (fun space =>
      conn_CliCommand ["target"; "-o"; Organization.Name org; "-s"; Space.Name space];;
      forRange (Space.Apps space) (fun app =>
        err ← (if decide (App.ServiceBroker app ≠ ServiceBroker.empty)
               then deleteAppAsService app
               else mret None);
        match err with
        | Some e => mret (Some e)
        | None => deleteApp app
        end))).

(** The two branches of the plugin's action: without [-c] ... *)
Definition apply : M unit :=
  err ← createOrganizations; fatalIf err;;
  err ← createSpaces; fatalIf err;;
  err ← createApps; fatalIf err;;
  err ← createServices; fatalIf err.

(** ... and with [-c]. *)
Definition teardown : M unit :=
  err ← deleteApps; fatalIf err;;
  err ← deleteServices; fatalIf err;;
  err ← deleteSpaces; fatalIf err;;
  err ← deleteOrganizations; fatalIf err.

(** app.Action: [f] is the value of flag -f when it is set, [c] is flag -c,
    [help] is what cli.ShowAppHelp prints. *)
Definition Action (help : string) (f : option string) (c : bool) : M unit :=
  match f with
  | None => println help;; os_Exit 1
  | Some fileName =>
      putRepo (SeedRepo.mk fileName SeederManifest.zero);;
      err ← readManifest; fatalIf err;;
      if c then teardown else apply
  end.

End Plugin.

(** ** Vocabulary of the statements *)

(** The command line a platform call carries. *)
Definition create_org (org : Organization.t) : Event :=
  CliCommand ["create-org"; Organization.Name org].
Definition delete_space (space : Space.t) : Event :=
  CliCommand ["delete-space"; Space.Name space; "-f"].
Definition delete_service (service : Service.t) : Event :=
  CliCommand ["delete-service"; Service.Name service; "-f"].
Definition delete_app (app : App.t) : Event :=
  CliCommand ["delete"; App.Name app; "-f"; "-r"].

(** enable-service-access / disable-service-access with their optional
    -p and -o flags, as the two access methods build them. *)
Definition accessArgs (verb : string) (service : Service.t) : list string :=
  appendFlag (appendFlag [verb; Service.Service service] "-p" (Service.Plan service))
             "-o" (Service.Org service).
Definition disable_access (service : Service.t) : Event :=
  CliCommand (accessArgs "disable-service-access" service).
Definition enable_access (service : Service.t) : Event :=
  CliCommand (accessArgs "enable-service-access" service).
Definition create_broker (broker : ServiceBroker.t) (url : string) : Event :=
  CliCommand ["create-service-broker"; ServiceBroker.Name broker;
              ServiceBroker.Username broker; ServiceBroker.Password broker; url].

(** The push command line of [deployApp] once the source is [args]. *)
Definition pushArgs (app : App.t) (args : list string) : list string :=
  appendFlag (appendFlag (appendFlag (appendFlag (appendFlag (appendFlag (appendFlag
    args "-k" (App.Disk app)) "-m" (App.Memory app)) "-i" (App.Instances app))
    "-n" (App.Hostname app)) "-d" (App.Domain app)) "-b" (App.Buildpack app))
    "-f" (App.Manifest app).

Definition curl (path : string) : Event :=
  CliCommandWithoutTerminalOutput ["curl"; path].

(** The text the platform answers to the query [path] after the events
    [h], as seed.go joins it: strings.Join(output, ""). *)
Definition answer (W : World) (h : list Event) (path : string) : string :=
  String.concat "" (fst (reply_CliCommandWithoutTerminalOutput W h ["curl"; path])).

(** [is_command name e]: [e] is a CliCommand whose first word is [name]. *)
Definition is_command (name : string) (e : Event) : bool :=
  match e with
  | CliCommand (c :: _) => String.eqb c name
  | _ => false
  end.

Definition is_CliCommand (e : Event) : bool :=
  match e with
  | CliCommand _ => true
  | _ => false
  end.

(** Read-only queries go through CliCommandWithoutTerminalOutput. *)
Definition is_query (e : Event) : bool :=
  match e with
  | CliCommandWithoutTerminalOutput _ => true
  | _ => false
  end.

(** Every application of the manifest, in declaration order. *)
Definition manifestApps (m : SeederManifest.t) : list App.t :=
  flat_map (fun org => flat_map Space.Apps (Organization.Spaces org))
           (SeederManifest.Organizations m).

(** ** Predicates on computations *)

(** Every event the computation adds satisfies [P]. *)
Definition emits {A} (P : Event -> Prop) (m : M A) : Prop :=
  forall r h, Forall P (emitted (m r h)).

(** The computation leaves the repo as it found it. *)
Definition keeps {A} (m : M A) : Prop := forall r h, store (m r h) = r.

(** [issues e m]: when [m] returns nil, it has issued [e]. *)
Definition issues (e : Event) (m : M (option error)) : Prop :=
  forall r h, outcome (m r h) = Returned None -> e ∈ emitted (m r h).

(** ** A sample platform

    A platform on which every command succeeds and that knows one
    application, [api], routed at api.example.com.  The answers of the
    queries are opaque texts; [sampleCodec] reads them. *)
Definition sampleWorld : World := {|
  reply_CliCommand := fun _ _ => ([], None);
  reply_CliCommandWithoutTerminalOutput := fun _ args =>
    match args with
    | [_; path] =>
        if decide (path = appQuery "space-1" "api") then (["apps:"; "api"], None)
        else if decide (path = "/v2/apps/app-1") then (["app:api"], None)
        else if decide (path = "/v2/apps/app-1/routes") then (["routes:api"], None)
        else if decide (path = "/v2/domains/domain-1") then (["domain:example.com"], None)
        else ([], Some "404")
    | _ => ([], Some "usage")
    end;
  reply_SpaceFields := fun _ => inl "space-1";
  reply_Getwd := fun _ => "/home/seed";
  reply_ReadDir := fun _ _ => ["manifest.yml"];
  reply_LookPath := fun _ _ => ("/usr/bin/git", None);
  reply_Run := fun _ _ _ => None;
  reply_ReadFile := fun _ _ => ("", None) |}.

Definition sampleCodec : Codec := {|
  yaml_Unmarshal := fun _ => (SeederManifest.zero, None);
  json_PaginatedApplicationResources := fun s =>
    if decide (s = "apps:api") then
      Some (PaginatedApplicationResources.mk
              [ApplicationResource.mk
                 (ApplicationResource.mkResource (ApplicationResource.mkMetadata "app-1"))])
    else Some (PaginatedApplicationResources.mk []);
  json_RetrieveAParticularApp := fun s =>
    if decide (s = "app:api") then
      Some (RetrieveAParticularApp.mk
              (RetrieveAParticularApp.mkEntity "api" "/v2/apps/app-1/routes"))
    else Some (RetrieveAParticularApp.mk (RetrieveAParticularApp.mkEntity "" ""));
  json_ListAllRoutesForTheApp := fun s =>
    if decide (s = "routes:api") then
      Some (ListAllRoutesForTheApp.mk 1 [Route.mk (Route.mkEntity "api" "/v2/domains/domain-1")])
    else Some (ListAllRoutesForTheApp.mk 0 []);
  json_RetrieveAParticularDomain := fun s =>
    if decide (s = "domain:example.com") then
      Some (RetrieveAParticularDomain.mk (RetrieveAParticularDomain.mkEntity "example.com"))
    else Some (RetrieveAParticularDomain.mk (RetrieveAParticularDomain.mkEntity "")) |}.

(** The same platform, except that every CliCommand reports a failure. *)
Definition failingWorld : World := {|
  reply_CliCommand := fun _ _ => ([], Some "FAILED");
  reply_CliCommandWithoutTerminalOutput := reply_CliCommandWithoutTerminalOutput sampleWorld;
  reply_SpaceFields := reply_SpaceFields sampleWorld;
  reply_Getwd := reply_Getwd sampleWorld;
  reply_ReadDir := reply_ReadDir sampleWorld;
  reply_LookPath := reply_LookPath sampleWorld;
  reply_Run := reply_Run sampleWorld;
  reply_ReadFile := reply_ReadFile sampleWorld |}.

Definition grantS1 : Service.t := Service.mk "" "s1" "free" "".

(** {name: api, path: ./api} *)
Definition api : App.t :=
  App.mk "api" "" "./api" "" "" "" "" "" "" "" ServiceBroker.empty [].

(** ... with serviceBroker {b1, u, p} and serviceAccess [{s1, free}]. *)
Definition apiBroker : App.t :=
  App.mk "api" "" "./api" "" "" "" "" "" "" "" (ServiceBroker.mk "b1" "u" "p" "") [grantS1].

(** {name: api, repo: ...}: fetched into apps/api. *)
Definition apiRepo : App.t :=
  App.mk "api" "https://example.com/api.git" "" "" "256M" "" "" "" "" ""
         ServiceBroker.empty [].

(** An application with neither repo nor path. *)
Definition apiNoSource : App.t :=
  App.mk "api" "" "" "" "" "" "" "" "" "" ServiceBroker.empty [].

(** Organization acme, space dev, one application and the service db. *)
Definition db : Service.t := Service.mk "db" "postgres" "small" "".
Definition devOf (app : App.t) : Space.t := Space.mk "dev" [app] [db].
Definition acmeOf (app : App.t) : Organization.t := Organization.mk "acme" [devOf app].
Definition manifestOf (app : App.t) : SeederManifest.t := SeederManifest.mk [acmeOf app].

Definition repoOf (app : App.t) : SeedRepo.t := SeedRepo.mk "seed.yml" (manifestOf app).

(** The end-to-end scenario: organization acme, space dev, the application
    api flagged as broker b1, no services. *)
Definition scenarioRepo : SeedRepo.t :=
  SeedRepo.mk "seed.yml"
    (SeederManifest.mk [Organization.mk "acme" [Space.mk "dev" [apiBroker] []]]).

(** A broker-flagged application the platform has never heard of. *)
Definition ghost : App.t :=
  App.mk "ghost" "" "./ghost" "" "" "" "" "" "" "" (ServiceBroker.mk "b2" "u" "p" "") [grantS1].

(** ** More vocabulary *)

Definition create_space (space : Space.t) : Event :=
  CliCommand ["create-space"; Space.Name space].
Definition create_service (service : Service.t) : Event :=
  CliCommand ["create-service"; Service.Service service; Service.Plan service;
              Service.Name service].
Definition target_org (org : Organization.t) : Event :=
  CliCommand ["target"; "-o"; Organization.Name org].
Definition target_space (org : Organization.t) (space : Space.t) : Event :=
  CliCommand ["target"; "-o"; Organization.Name org; "-s"; Space.Name space].

(** [command_in words e]: if [e] is a CliCommand, its first word is one
    of [words]. *)
Definition command_in (words : list string) (e : Event) : bool :=
  match e with
  | CliCommand (c :: _) => existsb (String.eqb c) words
  | CliCommand [] => false
  | _ => true
  end.

Definition applyWords : list string :=
  ["create-org"; "target"; "create-space"; "push"; "create-service-broker";
   "enable-service-access"; "create-service"].

Definition teardownWords : list string :=
  ["target"; "disable-service-access"; "delete-service-broker"; "delete";
   "delete-service"; "delete-space"; "delete-org"].

(** A command whose first word starts with delete has -f among its
    arguments. *)
Definition carries_force (e : Event) : Prop :=
  match e with
  | CliCommand (c :: args) => String.prefix "delete" c = true -> In "-f" args
  | _ => True
  end.

(** The optional flags of a push, in the order [deployApp] appends them. *)
Definition optionalFlags (app : App.t) : list string :=
  flat_map (fun '(flag, value) => if decide (value = "") then [] else [flag; value])
    [("-k", App.Disk app); ("-m", App.Memory app); ("-i", App.Instances app);
     ("-n", App.Hostname app); ("-d", App.Domain app); ("-b", App.Buildpack app);
     ("-f", App.Manifest app)].

(** A result that is an exit is an exit with status 1 whose last event is
    the error line. *)
Definition loud {A} (x : Res A) : Prop :=
  match outcome x with
  | Exited c => c = 1%Z /\ exists e, last (emitted x) = Some (Stdout ("error: " +:+ e))
  | _ => True
  end.

(** A result that is not a panic. *)
Definition calm {A} (x : Res A) : Prop :=
  match outcome x with
  | Panicked _ => False
  | _ => True
  end.

(** Events that need no broker: everything but queries and the read of the
    targeted space. *)
Definition brokerless (e : Event) : bool :=
  match e with
  | CliCommandWithoutTerminalOutput _ | SpaceFields => false
  | CliCommand (c :: _) =>
      negb (existsb (String.eqb c)
              ["create-service-broker"; "enable-service-access";
               "disable-service-access"; "delete-service-broker"])
  | _ => true
  end.

(** ** More sample platforms *)

(** apps/<name> is empty and git is not installed. *)
Definition gitlessWorld : World := {|
  reply_CliCommand := reply_CliCommand sampleWorld;
  reply_CliCommandWithoutTerminalOutput := reply_CliCommandWithoutTerminalOutput sampleWorld;
  reply_SpaceFields := reply_SpaceFields sampleWorld;
  reply_Getwd := reply_Getwd sampleWorld;
  reply_ReadDir := fun _ _ => [];
  reply_LookPath := fun _ _ => ("", Some "executable file not found in $PATH");
  reply_Run := reply_Run sampleWorld;
  reply_ReadFile := reply_ReadFile sampleWorld |}.

(** apps/<name> is empty and the clone fails. *)
Definition cloneFailWorld : World := {|
  reply_CliCommand := reply_CliCommand sampleWorld;
  reply_CliCommandWithoutTerminalOutput := reply_CliCommandWithoutTerminalOutput sampleWorld;
  reply_SpaceFields := reply_SpaceFields sampleWorld;
  reply_Getwd := reply_Getwd sampleWorld;
  reply_ReadDir := fun _ _ => [];
  reply_LookPath := reply_LookPath sampleWorld;
  reply_Run := fun _ _ _ => Some "exit status 128";
  reply_ReadFile := reply_ReadFile sampleWorld |}.

(** apps/<name> is empty and the clone succeeds. *)
Definition freshWorld : World := {|
  reply_CliCommand := reply_CliCommand sampleWorld;
  reply_CliCommandWithoutTerminalOutput := reply_CliCommandWithoutTerminalOutput sampleWorld;
  reply_SpaceFields := reply_SpaceFields sampleWorld;
  reply_Getwd := reply_Getwd sampleWorld;
  reply_ReadDir := fun _ _ => [];
  reply_LookPath := reply_LookPath sampleWorld;
  reply_Run := reply_Run sampleWorld;
  reply_ReadFile := reply_ReadFile sampleWorld |}.

(** The application api has lost its routes. *)
Definition routelessWorld : World := {|
  reply_CliCommand := reply_CliCommand sampleWorld;
  reply_CliCommandWithoutTerminalOutput := fun h args =>
    if decide (args = ["curl"; "/v2/apps/app-1/routes"]) then (["routes:none"], None)
    else reply_CliCommandWithoutTerminalOutput sampleWorld h args;
  reply_SpaceFields := reply_SpaceFields sampleWorld;
  reply_Getwd := reply_Getwd sampleWorld;
  reply_ReadDir := reply_ReadDir sampleWorld;
  reply_LookPath := reply_LookPath sampleWorld;
  reply_Run := reply_Run sampleWorld;
  reply_ReadFile := reply_ReadFile sampleWorld |}.

(** The CLI configuration cannot be read. *)
Definition noConfigWorld : World := {|
  reply_CliCommand := reply_CliCommand sampleWorld;
  reply_CliCommandWithoutTerminalOutput := reply_CliCommandWithoutTerminalOutput sampleWorld;
  reply_SpaceFields := fun _ => inr "config.json: permission denied";
  reply_Getwd := reply_Getwd sampleWorld;
  reply_ReadDir := reply_ReadDir sampleWorld;
  reply_LookPath := reply_LookPath sampleWorld;
  reply_Run := reply_Run sampleWorld;
  reply_ReadFile := reply_ReadFile sampleWorld |}.

(** The manifest file cannot be read. *)
Definition unreadableWorld : World := {|
  reply_CliCommand := reply_CliCommand sampleWorld;
  reply_CliCommandWithoutTerminalOutput := reply_CliCommandWithoutTerminalOutput sampleWorld;
  reply_SpaceFields := reply_SpaceFields sampleWorld;
  reply_Getwd := reply_Getwd sampleWorld;
  reply_ReadDir := reply_ReadDir sampleWorld;
  reply_LookPath := reply_LookPath sampleWorld;
  reply_Run := reply_Run sampleWorld;
  reply_ReadFile := fun _ _ => ("", Some "open seed.yml: no such file or directory") |}.

(** Every target fails, every other command succeeds. *)
Definition targetlessWorld : World := {|
  reply_CliCommand := fun _ args =>
    match args with
    | c :: _ => if String.eqb c "target" then ([], Some "FAILED") else ([], None)
    | [] => ([], None)
    end;
  reply_CliCommandWithoutTerminalOutput := reply_CliCommandWithoutTerminalOutput sampleWorld;
  reply_SpaceFields := reply_SpaceFields sampleWorld;
  reply_Getwd := reply_Getwd sampleWorld;
  reply_ReadDir := reply_ReadDir sampleWorld;
  reply_LookPath := reply_LookPath sampleWorld;
  reply_Run := reply_Run sampleWorld;
  reply_ReadFile := reply_ReadFile sampleWorld |}.

(** The organization beta cannot be created. *)
Definition pickyWorld : World := {|
  reply_CliCommand := fun _ args =>
    if decide (args = ["create-org"; "beta"]) then ([], Some "FAILED") else ([], None);
  reply_CliCommandWithoutTerminalOutput := reply_CliCommandWithoutTerminalOutput sampleWorld;
  reply_SpaceFields := reply_SpaceFields sampleWorld;
  reply_Getwd := reply_Getwd sampleWorld;
  reply_ReadDir := reply_ReadDir sampleWorld;
  reply_LookPath := reply_LookPath sampleWorld;
  reply_Run := reply_Run sampleWorld;
  reply_ReadFile := reply_ReadFile sampleWorld |}.

(** A codec that reads the routes of api as two entries and no resource. *)
Definition oddCodec : Codec := {|
  yaml_Unmarshal := yaml_Unmarshal sampleCodec;
  json_PaginatedApplicationResources := json_PaginatedApplicationResources sampleCodec;
  json_RetrieveAParticularApp := json_RetrieveAParticularApp sampleCodec;
  json_ListAllRoutesForTheApp := fun _ => Some (ListAllRoutesForTheApp.mk 2 []);
  json_RetrieveAParticularDomain := json_RetrieveAParticularDomain sampleCodec |}.

(** A codec that reads every manifest file as the manifest of api. *)
Definition apiCodec : Codec := {|
  yaml_Unmarshal := fun _ => (manifestOf api, None);
  json_PaginatedApplicationResources := json_PaginatedApplicationResources sampleCodec;
  json_RetrieveAParticularApp := json_RetrieveAParticularApp sampleCodec;
  json_ListAllRoutesForTheApp := json_ListAllRoutesForTheApp sampleCodec;
  json_RetrieveAParticularDomain := json_RetrieveAParticularDomain sampleCodec |}.

(** Three organizations without spaces. *)
Definition threeOrgs : SeedRepo.t :=
  SeedRepo.mk "seed.yml"
    (SeederManifest.mk [Organization.mk "alpha" []; Organization.mk "beta" [];
                        Organization.mk "gamma" []]).

(** {name: api, path: ./api} with every optional field set. *)
Definition apiFull : App.t :=
  App.mk "api" "" "./api" "1G" "256M" "2" "api" "example.com" "go_buildpack"
         "manifest.yml" ServiceBroker.empty [].

(** [always Q m]: every result of [m] satisfies [Q]. *)
Definition always (Q : forall A, Res A -> Prop) {A} (m : M A) : Prop :=
  forall r h, Q A (m r h).

(** No application of the manifest carries a service broker. *)
Definition no_brokers (r : SeedRepo.t) : Prop :=
  forall app, app ∈ manifestApps (SeedRepo.Manifest r) ->
              App.ServiceBroker app = ServiceBroker.empty.

(** [brokerless_run m]: on a manifest without brokers, [m] emits only
    brokerless events, keeps the repo and does not panic. *)
Definition brokerless_run {A} (m : M A) : Prop :=
  forall r h, no_brokers r ->
    Forall (fun e => brokerless e = true) (emitted (m r h)) /\
    store (m r h) = r /\ calm (m r h).

(** A codec that reads every routes answer as the JSON literal null. *)
Definition nullCodec : Codec := {|
  yaml_Unmarshal := yaml_Unmarshal sampleCodec;
  json_PaginatedApplicationResources := json_PaginatedApplicationResources sampleCodec;
  json_RetrieveAParticularApp := json_RetrieveAParticularApp sampleCodec;
  json_ListAllRoutesForTheApp := fun _ => None;
  json_RetrieveAParticularDomain := json_RetrieveAParticularDomain sampleCodec |}.

(** The record of api as the platform describes it. *)
Definition apiInfo : RetrieveAParticularApp.t :=
  RetrieveAParticularApp.mk (RetrieveAParticularApp.mkEntity "api" "/v2/apps/app-1/routes").

(** The one application the search for api finds. *)
Definition apiFound : ApplicationResource.t :=
  ApplicationResource.mk
    (ApplicationResource.mkResource (ApplicationResource.mkMetadata "app-1")).

(** ** Laws of the monad *)

Section Laws.

Context {A B : Type}.
Implicit Types (m : M A) (f : A -> M B) (r : SeedRepo.t) (h : list Event).

Lemma emitted_bind m f r h :
  emitted ((m ≫= f) r h) =
  emitted (m r h) ++
  match outcome (m r h) with
  | Returned a => emitted (f a (store (m r h)) (h ++ emitted (m r h)))
  | _ => []
  end.
Proof.
  unfold mbind, M_bind, bind. destruct (outcome (m r h)); simpl; auto using app_nil_r.
  all: symmetry; apply app_nil_r.
Qed.

Lemma store_bind m f r h :
  store ((m ≫= f) r h) =
  match outcome (m r h) with
  | Returned a => store (f a (store (m r h)) (h ++ emitted (m r h)))
  | _ => store (m r h)
  end.
Proof. unfold mbind, M_bind, bind. destruct (outcome (m r h)); reflexivity. Qed.

Lemma outcome_bind m f r h :
  outcome ((m ≫= f) r h) =
  match outcome (m r h) with
  | Returned a => outcome (f a (store (m r h)) (h ++ emitted (m r h)))
  | Exited c => Exited c
  | Panicked msg => Panicked msg
  end.
Proof. unfold mbind, M_bind, bind. destruct (outcome (m r h)); reflexivity. Qed.

Lemma outcome_bind_Returned m f r h b :
  outcome ((m ≫= f) r h) = Returned b ->
  exists a, outcome (m r h) = Returned a /\
            outcome (f a (store (m r h)) (h ++ emitted (m r h))) = Returned b.
Proof.
  rewrite outcome_bind. destruct (outcome (m r h)); try discriminate. eauto.
Qed.

End Laws.

(** A [call] followed by its continuation. *)
Lemma call_bind {A B} (e : Event) (reply : list Event -> A) (f : A -> M B) r h :
  (call e reply ≫= f) r h =
  let y := f (reply h) r (h ++ [e]) in mkRes (outcome y) (store y) (e :: emitted y).
Proof. reflexivity. Qed.

Lemma run_ret {A} (a : A) r h : (mret a : M A) r h = mkRes (Returned a) r [].
Proof. reflexivity. Qed.

Lemma ret_bind {A B} (a : A) (f : A -> M B) r h :
  ((mret a : M A) ≫= f) r h =
  let y := f a r h in mkRes (outcome y) (store y) (emitted y).
Proof. unfold mbind, M_bind, bind. cbn. rewrite app_nil_r. reflexivity. Qed.

Lemma deref_Some_bind {A B} (a : A) (f : A -> M B) r h :
  (deref (Some a) ≫= f) r h =
  let y := f a r h in mkRes (outcome y) (store y) (emitted y).
Proof. apply (ret_bind a f). Qed.

Lemma deref_None_bind {A B} (f : A -> M B) r h :
  (deref None ≫= f) r h
  = mkRes (Panicked "invalid memory address or nil pointer dereference") r [].
Proof. reflexivity. Qed.

Lemma index0_cons_bind {A B} (a : A) (l : list A) (f : A -> M B) r h :
  (index0 (a :: l) ≫= f) r h =
  let y := f a r h in mkRes (outcome y) (store y) (emitted y).
Proof. apply (ret_bind a f). Qed.

Lemma index0_nil_bind {A B} (f : A -> M B) r h :
  (index0 [] ≫= f) r h = mkRes (Panicked "index out of range") r [].
Proof. reflexivity. Qed.

Lemma exit_bind {A B} (code : Z) (f : A -> M B) r h :
  (os_Exit code ≫= f) r h = mkRes (Exited code) r [].
Proof. reflexivity. Qed.

Lemma bind_assoc {A B D} (m : M A) (f : A -> M B) (g : B -> M D) r h :
  ((m ≫= f) ≫= g) r h = (m ≫= (fun a => f a ≫= g)) r h.
Proof.
  unfold mbind, M_bind, bind. cbn.
  destruct (outcome (m r h)); cbn; [|reflexivity|reflexivity].
  destruct (outcome (f a (store (m r h)) (h ++ emitted (m r h)))); cbn;
    rewrite <- ?app_assoc; reflexivity.
Qed.

(** Run a computation as far as the answers of the world are known: one
    step per call, from the outside in. *)
Ltac exec :=
  repeat first
    [ rewrite bind_assoc
    | rewrite call_bind
    | rewrite ret_bind
    | rewrite deref_Some_bind
    | rewrite deref_None_bind
    | rewrite index0_cons_bind
    | rewrite index0_nil_bind
    | rewrite exit_bind
    | rewrite run_ret
    | progress cbv zeta
    | progress cbn [outcome store emitted fst snd] ].

(** ** Two invariants of computations: what they emit, and the repo *)

Section Invariants.

Context {A B : Type} (P : Event -> Prop).

Lemma emits_ret (a : A) : emits P (mret a).
Proof. intros r h. constructor. Qed.

Lemma emits_call (e : Event) (reply : list Event -> A) : P e -> emits P (call e reply).
Proof. intros He r h. simpl. auto. Qed.

Lemma emits_exit code : emits P (@os_Exit A code).
Proof. intros r h. constructor. Qed.

Lemma emits_bind (m : M A) (f : A -> M B) :
  emits P m -> (forall a, emits P (f a)) -> emits P (m ≫= f).
Proof.
  intros Hm Hf r h. rewrite emitted_bind. apply Forall_app. split; [apply Hm|].
  destruct (outcome (m r h)); [apply Hf | constructor | constructor].
Qed.

Lemma keeps_ret (a : A) : keeps (mret a).
Proof. intros r h. reflexivity. Qed.

Lemma keeps_call (e : Event) (reply : list Event -> A) : keeps (call e reply).
Proof. intros r h. reflexivity. Qed.

Lemma keeps_exit code : keeps (@os_Exit A code).
Proof. intros r h. reflexivity. Qed.

Lemma keeps_bind (m : M A) (f : A -> M B) :
  keeps m -> (forall a, keeps (f a)) -> keeps (m ≫= f).
Proof.
  intros Hm Hf r h. rewrite store_bind.
  destruct (outcome (m r h)); rewrite ?Hf; apply Hm.
Qed.

End Invariants.

Lemma emits_getRepo P : emits P getRepo.
Proof. intros r h. constructor. Qed.

Lemma keeps_getRepo : keeps getRepo.
Proof. intros r h. reflexivity. Qed.

Lemma emits_deref {A} P (p : option A) : emits P (deref p).
Proof. destruct p; intros r h; constructor. Qed.

Lemma keeps_deref {A} (p : option A) : keeps (deref p).
Proof. destruct p; intros r h; reflexivity. Qed.

Lemma emits_index0 {A} P (l : list A) : emits P (index0 l).
Proof. destruct l; intros r h; constructor. Qed.

Lemma keeps_index0 {A} (l : list A) : keeps (index0 l).
Proof. destruct l; intros r h; reflexivity. Qed.

Lemma emits_forRange {A} P (l : list A) (body : A -> M (option error)) :
  (forall x, emits P (body x)) -> emits P (forRange l body).
Proof.
  intros Hb. induction l as [|x l IH]; simpl.
  - apply (emits_ret P).
  - apply (emits_bind P); [apply Hb|]. intros [e|]; [apply (emits_ret P) | apply IH].
Qed.

Lemma keeps_forRange {A} (l : list A) (body : A -> M (option error)) :
  (forall x, keeps (body x)) -> keeps (forRange l body).
Proof.
  intros Hb. induction l as [|x l IH]; simpl.
  - apply keeps_ret.
  - apply keeps_bind; [apply Hb|]. intros [e|]; [apply keeps_ret | apply IH].
Qed.

(** One tactic for both invariants: follow the structure of the code;
    [known] closes the calls of methods already dealt with. *)
Ltac walk_using known :=
  repeat first
    [ solve [known]
    | apply emits_bind | apply keeps_bind
    | apply emits_ret | apply keeps_ret
    | apply emits_getRepo | apply keeps_getRepo
    | apply emits_deref | apply keeps_deref
    | apply emits_index0 | apply keeps_index0
    | apply emits_exit | apply keeps_exit
    | apply emits_forRange | apply keeps_forRange
    | apply keeps_call
    | apply emits_call
    | progress intros
    | match goal with
      | |- context [match ?x with _ => _ end] => destruct x
      end ].

Ltac walk := walk_using fail.

Lemma getRepo_bind {B} (f : SeedRepo.t -> M B) r h :
  outcome ((getRepo ≫= f) r h) = outcome (f r r h) /\
  emitted ((getRepo ≫= f) r h) = emitted (f r r h) /\
  store ((getRepo ≫= f) r h) = store (f r r h).
Proof. unfold mbind, M_bind, bind. simpl. rewrite app_nil_r. auto. Qed.

Lemma appendFlag_cons (a : string) (l : list string) (flag s : string) :
  appendFlag (a :: l) flag s = a :: appendFlag l flag s.
Proof. unfold appendFlag. destruct (decide (s = "")); reflexivity. Qed.


(** ** What each method emits and that it keeps the repo *)

Section Methods.

Variable W : World.
Variable C : Codec.

Lemma emitted_access_bodies service r h :
  (emitted (disableServiceAccess W service r h) = [disable_access service] /\
   store (disableServiceAccess W service r h) = r /\
   exists o, outcome (disableServiceAccess W service r h) = Returned o) /\
  (emitted (enableServiceAccess W service r h) = [enable_access service] /\
   store (enableServiceAccess W service r h) = r /\
   exists o, outcome (enableServiceAccess W service r h) = Returned o).
Proof.
  unfold disableServiceAccess, enableServiceAccess, conn_CliCommand,
    disable_access, enable_access, accessArgs.
  cbv zeta. rewrite !call_bind. cbv zeta.
  split; (destruct (reply_CliCommand W h _) as [out err]; simpl; eauto).
Qed.

(** The methods that only query: nothing but local events and queries. *)
Section Local.

Variable P : Event -> Prop.
Hypothesis P_local : forall e, is_CliCommand e = false -> P e.

Lemma emits_fatalIf err : emits P (fatalIf err).
Proof. unfold fatalIf, println. walk; auto. Qed.

Lemma emits_getAppInfo app : emits P (getAppInfo W C app).
Proof.
  unfold getAppInfo, confRepo_SpaceFields_Guid, findAppGUID, findApp,
    conn_CliCommandWithoutTerminalOutput.
  walk_using ltac:(apply emits_fatalIf); auto.
Qed.

Lemma emits_firstAppRoute appInfo : emits P (firstAppRoute W C appInfo).
Proof.
  unfold firstAppRoute, conn_CliCommandWithoutTerminalOutput. walk; auto.
Qed.

End Local.

Lemma keeps_fatalIf err : keeps (fatalIf err).
Proof. unfold fatalIf, println. walk. Qed.

Lemma keeps_getAppInfo app : keeps (getAppInfo W C app).
Proof.
  unfold getAppInfo, confRepo_SpaceFields_Guid, findAppGUID, findApp,
    conn_CliCommandWithoutTerminalOutput.
  walk_using ltac:(apply keeps_fatalIf).
Qed.

Lemma keeps_firstAppRoute appInfo : keeps (firstAppRoute W C appInfo).
Proof.
  unfold firstAppRoute, conn_CliCommandWithoutTerminalOutput. walk.
Qed.

Lemma keeps_deployApp app : keeps (deployApp W app).
Proof. unfold deployApp, pushWith, conn_CliCommand. walk. Qed.

Lemma keeps_setAppAsService app : keeps (setAppAsService W C app).
Proof.
  unfold setAppAsService, createServiceBroker, enableServiceAccess, conn_CliCommand.
  walk_using ltac:(first [apply keeps_getAppInfo | apply keeps_firstAppRoute]).
Qed.

Lemma keeps_deleteAppAsService app : keeps (deleteAppAsService W C app).
Proof.
  unfold deleteAppAsService, deleteServiceBroker, disableServiceAccess, conn_CliCommand.
  walk_using ltac:(first [apply keeps_getAppInfo | apply keeps_firstAppRoute]).
Qed.

Lemma keeps_createOrganizations : keeps (createOrganizations W).
Proof. unfold createOrganizations, conn_CliCommand. walk. Qed.

Lemma keeps_deleteOrganizations : keeps (deleteOrganizations W).
Proof. unfold deleteOrganizations, conn_CliCommand. walk. Qed.

Lemma keeps_createSpaces : keeps (createSpaces W).
Proof. unfold createSpaces, conn_CliCommand. walk. Qed.

Lemma keeps_deleteSpaces : keeps (deleteSpaces W).
Proof. unfold deleteSpaces, conn_CliCommand. walk. Qed.

Lemma keeps_createServices : keeps (createServices W).
Proof. unfold createServices, conn_CliCommand. walk. Qed.

Lemma keeps_deleteServices : keeps (deleteServices W).
Proof. unfold deleteServices, conn_CliCommand. walk. Qed.

Lemma keeps_createApps : keeps (createApps W C).
Proof.
  unfold createApps, conn_CliCommand, println.
  walk_using ltac:(first [apply keeps_deployApp | apply keeps_setAppAsService]).
Qed.

Lemma keeps_deleteApps : keeps (deleteApps W C).
Proof.
  unfold deleteApps, deleteApp, conn_CliCommand.
  walk_using ltac:(apply keeps_deleteAppAsService).
Qed.

(** The methods below the organization level never issue the command
    [name] when [name] is create-org or delete-org. *)
Section BelowOrganizations.

Variable name : string.
Hypothesis org_level : name = "create-org" \/ name = "delete-org".

Let P (e : Event) : Prop := is_command name e = false.












End BelowOrganizations.

End Methods.

(** ** Loops *)

(** A loop whose body is one platform call per element: it issues the
    calls of a prefix of the list, in order, and all of them when it
    returns nil. *)
Lemma forRange_single {A} (ev : A -> Event) (body : A -> M (option error)) (l : list A) :
  (forall x r h, emitted (body x r h) = [ev x] /\ store (body x r h) = r /\
                 exists o, outcome (body x r h) = Returned o) ->
  forall r h,
    emitted (forRange l body r h) `prefix_of` map ev l /\
    (outcome (forRange l body r h) = Returned None ->
     emitted (forRange l body r h) = map ev l) /\
    (exists o, outcome (forRange l body r h) = Returned o) /\
    store (forRange l body r h) = r.
Proof.
  intros Hb. induction l as [|x l IH]; intros r h.
  - simpl. repeat split; eauto using prefix_nil.
  - simpl forRange.
    change (bind (body x) ?f) with (body x ≫= f).
    rewrite emitted_bind, outcome_bind, store_bind.
    destruct (Hb x r h) as (He & Hs & o & Ho). rewrite He, Ho, Hs.
    destruct o as [e|].
    + simpl. repeat split; eauto using prefix_cons, prefix_nil; try discriminate.
    + destruct (IH r (h ++ [ev x])) as (Hp & Hall & Hret & Hst).
      simpl. split; [apply prefix_cons, Hp|]. split; [|auto].
      intros Hn. f_equal. auto.
Qed.


Lemma issues_bind_r {A} e (m : M A) (f : A -> M (option error)) :
  (forall a, issues e (f a)) -> issues e (m ≫= f).
Proof.
  intros Hf r h Ho. rewrite emitted_bind.
  apply outcome_bind_Returned in Ho as (a & Ha & Hfa). rewrite Ha.
  apply elem_of_app. right. apply Hf, Hfa.
Qed.

Lemma issues_call {A} e (reply : list Event -> A) (f : A -> M (option error)) :
  issues e (call e reply ≫= f).
Proof. intros r h _. rewrite call_bind. simpl. apply list_elem_of_here. Qed.

Lemma issues_forRange {A} e (l : list A) (body : A -> M (option error)) x :
  x ∈ l -> issues e (body x) -> issues e (forRange l body).
Proof.
  intros Hx Hb. induction l as [|y l IH]; [by apply elem_of_nil in Hx|].
  intros r h Ho. simpl forRange in *.
  change (bind (body y) ?f) with (body y ≫= f) in *.
  rewrite emitted_bind.
  apply outcome_bind_Returned in Ho as (o & Hy & Hk). rewrite Hy.
  destruct o as [err|]; [discriminate|].
  apply elem_of_app. apply elem_of_cons in Hx as [->|Hx].
  - left. apply Hb, Hy.
  - right. apply IH; auto.
Qed.

(** ** Phases of a run: [err := phase(); fatalIf(err)] *)

Lemma phase_Returned (m : M (option error)) (k : M unit) r h :
  outcome (m r h) = Returned None ->
  emitted ((err ← m; fatalIf err;; k) r h)
  = emitted (m r h) ++ emitted (k (store (m r h)) (h ++ emitted (m r h))) /\
  outcome ((err ← m; fatalIf err;; k) r h)
  = outcome (k (store (m r h)) (h ++ emitted (m r h))) /\
  store ((err ← m; fatalIf err;; k) r h)
  = store (k (store (m r h)) (h ++ emitted (m r h))).
Proof.
  intros Ho. rewrite emitted_bind, outcome_bind, store_bind, Ho.
  unfold fatalIf.
  rewrite emitted_bind, outcome_bind, store_bind. simpl.
  rewrite app_nil_r. auto.
Qed.

Lemma phase_stopped (m : M (option error)) (k : M unit) r h :
  outcome (m r h) <> Returned None ->
  (exists l, emitted ((err ← m; fatalIf err;; k) r h) = emitted (m r h) ++ l /\
             Forall (fun e => is_CliCommand e = false) l) /\
  outcome ((err ← m; fatalIf err;; k) r h) <> Returned tt.
Proof.
  intros Ho. rewrite emitted_bind, outcome_bind.
  destruct (outcome (m r h)) as [[e|]|c|msg]; try congruence.
  - split; [|discriminate]. eexists; split; [reflexivity|].
    unfold fatalIf, println. simpl. repeat constructor.
  - split; [|discriminate]. exists []. split; [reflexivity|constructor].
  - split; [|discriminate]. exists []. split; [reflexivity|constructor].
Qed.


(** ** Lists *)

Lemma filter_keep_drop {A} (p : A -> bool) (l1 l2 : list A) :
  Forall (fun e => p e = true) l1 -> Forall (fun e => p e = false) l2 ->
  List.filter p (l1 ++ l2) = l1.
Proof.
  intros H1 H2. rewrite List.filter_app.
  replace (List.filter p l2) with (@nil A).
  - rewrite app_nil_r. induction H1 as [|x l Hx _ IH]; simpl; [auto|].
    rewrite Hx. f_equal. exact IH.
  - induction H2 as [|x l Hx _ IH]; simpl; [auto|]. rewrite Hx. exact IH.
Qed.

Lemma filter_drop_then {A} (p : A -> bool) (l1 l2 : list A) :
  Forall (fun e => p e = false) l1 ->
  List.filter p (l1 ++ l2) = List.filter p l2.
Proof.
  intros H1. rewrite List.filter_app.
  replace (List.filter p l1) with (@nil A); [reflexivity|].
  induction H1 as [|x l Hx _ IH]; simpl; [auto|]. rewrite Hx. exact IH.
Qed.

(** An element that satisfies [p] cannot sit in a part of the list where
    nothing does. *)
Lemma split_past {A} (p : A -> bool) (l m pre post : list A) (x : A) :
  Forall (fun e => p e = false) l -> p x = true ->
  l ++ m = pre ++ x :: post ->
  exists pre', pre = l ++ pre' /\ m = pre' ++ x :: post.
Proof.
  intros Hl Hx. revert pre. induction Hl as [|a l Ha _ IH]; intros pre Heq.
  - exists pre. auto.
  - destruct pre as [|b pre]; simpl in Heq; injection Heq as Hab Heq.
    + subst a. congruence.
    + subst b. destruct (IH pre Heq) as (pre' & -> & Hm). exists pre'. auto.
Qed.


(** ** Organizations: created and deleted in manifest order *)

Section Orders.

Variable W : World.
Variable C : Codec.

Lemma createOrganizations_spec r h :
  let x := createOrganizations W r h in
  emitted x `prefix_of` map create_org (SeederManifest.Organizations (SeedRepo.Manifest r)) /\
  (outcome x = Returned None ->
   emitted x = map create_org (SeederManifest.Organizations (SeedRepo.Manifest r))).
Proof.
  unfold createOrganizations. cbv zeta.
  destruct (getRepo_bind
    (fun repo => forRange (SeederManifest.Organizations (SeedRepo.Manifest repo))
       (fun org => '(_, err) ← conn_CliCommand W ["create-org"; Organization.Name org];
                   mret err)) r h) as (-> & -> & _).
  edestruct (forRange_single create_org) as (Hp & Hall & _); [|split; [exact Hp|exact Hall]].
  intros org r' h'. unfold conn_CliCommand. rewrite call_bind. cbv zeta.
  destruct (reply_CliCommand W h' _) as [out err]. simpl. eauto.
Qed.



Lemma deleteServices_issues r h org space service :
  org ∈ SeederManifest.Organizations (SeedRepo.Manifest r) ->
  space ∈ Organization.Spaces org ->
  service ∈ Space.Services space ->
  outcome (deleteServices W r h) = Returned None ->
  delete_service service ∈ emitted (deleteServices W r h).
Proof.
  intros Horg Hspace Hservice. unfold deleteServices.
  destruct (getRepo_bind
    (fun repo => forRange (SeederManifest.Organizations (SeedRepo.Manifest repo))
       (fun org => forRange (Organization.Spaces org) (fun space =>
          conn_CliCommand W ["target"; "-o"; Organization.Name org; "-s"; Space.Name space];;
          forRange (Space.Services space) (fun service =>
            '(_, err) ← conn_CliCommand W ["delete-service"; Service.Name service; "-f"];
            mret err)))) r h) as (-> & -> & _).
  apply (issues_forRange _ _ _ org Horg).
  apply (issues_forRange _ _ _ space Hspace).
  apply issues_bind_r. intros _.
  apply (issues_forRange _ _ _ service Hservice).
  apply issues_call.
Qed.

Lemma deleteApps_issues r h org space app :
  org ∈ SeederManifest.Organizations (SeedRepo.Manifest r) ->
  space ∈ Organization.Spaces org ->
  app ∈ Space.Apps space ->
  outcome (deleteApps W C r h) = Returned None ->
  delete_app app ∈ emitted (deleteApps W C r h).
Proof.
  intros Horg Hspace Happ. unfold deleteApps.
  destruct (getRepo_bind
    (fun repo => forRange (SeederManifest.Organizations (SeedRepo.Manifest repo))
       (fun org => forRange (Organization.Spaces org) (fun space =>
          conn_CliCommand W ["target"; "-o"; Organization.Name org; "-s"; Space.Name space];;
          forRange (Space.Apps space) (fun app =>
            err ← (if decide (App.ServiceBroker app ≠ ServiceBroker.empty)
                   then deleteAppAsService W C app
                   else mret None);
            match err with
            | Some e => mret (Some e)
            | None => deleteApp W app
            end)))) r h) as (-> & -> & _).
  apply (issues_forRange _ _ _ org Horg).
  apply (issues_forRange _ _ _ space Hspace).
  apply issues_bind_r. intros _.
  apply (issues_forRange _ _ _ app Happ).
  apply issues_bind_r. intros [e|].
  - intros r' h' Ho. discriminate.
  - unfold deleteApp. apply issues_call.
Qed.


(** ... and whatever satisfies [p] in the run comes after that phase,
    which has then returned nil. *)
Lemma phase_before (p : Event -> bool) (m : M (option error)) (k : M unit)
      r h pre x post :
  (forall e, is_CliCommand e = false -> p e = false) ->
  emits (fun e => p e = false) m -> keeps m -> p x = true ->
  emitted ((err ← m; fatalIf err;; k) r h) = pre ++ x :: post ->
  outcome (m r h) = Returned None /\
  exists pre', pre = emitted (m r h) ++ pre' /\
               emitted (k r (h ++ emitted (m r h))) = pre' ++ x :: post.
Proof.
  intros Hp Hm Hkeep Hx Heq.
  destruct (decide (outcome (m r h) = Returned None)) as [Ho|Ho].
  - split; [exact Ho|].
    destruct (phase_Returned m k r h Ho) as (He & _). rewrite He, (Hkeep r h) in Heq.
    exact (split_past p _ _ _ _ _ (Hm r h) Hx Heq).
  - exfalso. destruct (phase_stopped m k r h Ho) as ((l & He & Hl) & _).
    rewrite He in Heq.
    assert (Hall : Forall (fun e => p e = false) (emitted (m r h) ++ l)).
    { apply Forall_app. split; [apply Hm|]. eapply Forall_impl; [exact Hl|]. auto. }
    rewrite Heq in Hall. apply Forall_app in Hall as [_ Hall].
    apply Forall_cons in Hall as [Hx' _]. congruence.
Qed.

Lemma not_command_local name e : is_CliCommand e = false -> is_command name e = false.
Proof. destruct e; simpl; congruence. Qed.



End Orders.


(** ** Route resolution and the broker lifecycle *)

Section Resolution.

Variable W : World.
Variable C : Codec.


(** Bring the histories into the shape [h ++ [e1; e2; ...]]. *)
Ltac histories := repeat (rewrite <- app_assoc in * ); cbn [List.app] in *.

Lemma findAppGUID_empty spaceGUID appName r h found :
  json_PaginatedApplicationResources C (answer W h (appQuery spaceGUID appName)) = Some found ->
  PaginatedApplicationResources.Resources found = [] ->
  outcome (findAppGUID W C spaceGUID appName r h) = Panicked "index out of range" /\
  emitted (findAppGUID W C spaceGUID appName r h) = [curl (appQuery spaceGUID appName)].
Proof.
  intros Hfound Hnone. unfold findAppGUID, conn_CliCommandWithoutTerminalOutput, answer in *.
  exec. destruct (reply_CliCommandWithoutTerminalOutput W h _) as [output err].
  cbn [fst] in Hfound. rewrite Hfound. exec. rewrite Hnone. exec. auto.
Qed.

Lemma getAppInfo_inv app r h appInfo :
  outcome (getAppInfo W C app r h) = Returned appInfo ->
  exists guid appGuid,
    emitted (getAppInfo W C app r h)
    = [SpaceFields; curl (appQuery guid (App.Name app)); curl ("/v2/apps/" +:+ appGuid)].
Proof.
  unfold getAppInfo, confRepo_SpaceFields_Guid, findAppGUID, findApp,
    conn_CliCommandWithoutTerminalOutput, fatalIf, println, curl.
  exec. destruct (reply_SpaceFields W h) as [guid|err]; exec; [|discriminate].
  destruct (reply_CliCommandWithoutTerminalOutput W _ _) as [output err]. exec.
  destruct (json_PaginatedApplicationResources C _) as [found|]; exec; [|discriminate].
  destruct (PaginatedApplicationResources.Resources found) as [|first more]; exec;
    [discriminate|].
  destruct (reply_CliCommandWithoutTerminalOutput W _ _) as [output' err']. exec.
  intros _. eauto.
Qed.

Lemma getAppInfo_found app r h guid found first more :
  reply_SpaceFields W h = inl guid ->
  json_PaginatedApplicationResources C
    (answer W (h ++ [SpaceFields]) (appQuery guid (App.Name app))) = Some found ->
  PaginatedApplicationResources.Resources found = first :: more ->
  let appGuid := ApplicationResource.Guid
                   (ApplicationResource.Metadata (ApplicationResource.Resource first)) in
  let queries := [SpaceFields; curl (appQuery guid (App.Name app));
                  curl ("/v2/apps/" +:+ appGuid)] in
  outcome (getAppInfo W C app r h)
  = Returned (json_RetrieveAParticularApp C
                (answer W (h ++ [SpaceFields; curl (appQuery guid (App.Name app))])
                        ("/v2/apps/" +:+ appGuid))) /\
  emitted (getAppInfo W C app r h) = queries /\
  store (getAppInfo W C app r h) = r.
Proof.
  intros Hguid Hfound Hfirst.
  unfold getAppInfo, confRepo_SpaceFields_Guid, findAppGUID, findApp,
    conn_CliCommandWithoutTerminalOutput, answer, curl in *.
  exec. rewrite Hguid. exec.
  destruct (reply_CliCommandWithoutTerminalOutput W (h ++ [SpaceFields]) _) as [output err].
  cbn [fst] in Hfound. exec. rewrite Hfound. exec. rewrite Hfirst. exec. histories.
  destruct (reply_CliCommandWithoutTerminalOutput W _ _) as [output' err']. exec.
  auto.
Qed.

Lemma getAppInfo_no_match app r h guid found :
  reply_SpaceFields W h = inl guid ->
  json_PaginatedApplicationResources C
    (answer W (h ++ [SpaceFields]) (appQuery guid (App.Name app))) = Some found ->
  PaginatedApplicationResources.Resources found = [] ->
  outcome (getAppInfo W C app r h) = Panicked "index out of range" /\
  emitted (getAppInfo W C app r h) = [SpaceFields; curl (appQuery guid (App.Name app))].
Proof.
  intros Hguid Hfound Hnone. unfold getAppInfo, confRepo_SpaceFields_Guid.
  exec. rewrite Hguid. exec.
  destruct (findAppGUID_empty guid (App.Name app) r (h ++ [SpaceFields]) found Hfound Hnone)
    as [Ho He].
  rewrite outcome_bind, emitted_bind, Ho, He. auto.
Qed.

(** The composed hostname: "%s.%s" of host and domain, or the bare domain. *)
Lemma firstAppRoute_found info r h routes route others domain :
  let routesURL := RetrieveAParticularApp.RoutesURL (RetrieveAParticularApp.Entity info) in
  let domainURL := Route.DomainURL (Route.Entity route) in
  json_ListAllRoutesForTheApp C (answer W h routesURL) = Some routes ->
  ListAllRoutesForTheApp.TotalResults routes <> 0%Z ->
  ListAllRoutesForTheApp.Resources routes = route :: others ->
  json_RetrieveAParticularDomain C (answer W (h ++ [curl routesURL]) domainURL)
  = Some domain ->
  let host := Route.Host (Route.Entity route) in
  let name := RetrieveAParticularDomain.Name (RetrieveAParticularDomain.Entity domain) in
  outcome (firstAppRoute W C (Some info) r h)
  = Returned (if decide (host = "") then name else host +:+ "." +:+ name, None) /\
  emitted (firstAppRoute W C (Some info) r h) = [curl routesURL; curl domainURL] /\
  store (firstAppRoute W C (Some info) r h) = r.
Proof.
  cbv zeta. intros Hroutes Htotal Hfirst Hdomain.
  unfold firstAppRoute, conn_CliCommandWithoutTerminalOutput, answer, curl in *.
  exec. destruct (reply_CliCommandWithoutTerminalOutput W h _) as [output err].
  cbn [fst] in Hroutes. exec. rewrite Hroutes. exec.
  destruct (decide (ListAllRoutesForTheApp.TotalResults routes = 0%Z)); [contradiction|].
  exec. rewrite Hfirst. exec.
  destruct (reply_CliCommandWithoutTerminalOutput W _ _) as [output' err'].
  cbn [fst] in Hdomain. exec. rewrite Hdomain. exec.
  destruct (decide (Route.Host (Route.Entity route) = ""));
    destruct (decide (Route.Host (Route.Entity route) ≠ "")); try contradiction; exec; auto.
Qed.

Lemma firstAppRoute_inv appInfo r h route :
  outcome (firstAppRoute W C appInfo r h) = Returned (route, None) ->
  exists routesURL domainURL,
    emitted (firstAppRoute W C appInfo r h) = [curl routesURL; curl domainURL].
Proof.
  unfold firstAppRoute, conn_CliCommandWithoutTerminalOutput, curl.
  destruct appInfo as [info|]; exec; [|discriminate].
  destruct (reply_CliCommandWithoutTerminalOutput W h _) as [output err]. exec.
  destruct (json_ListAllRoutesForTheApp C _) as [routes|]; exec; [|discriminate].
  destruct (decide (ListAllRoutesForTheApp.TotalResults routes = 0%Z)); exec;
    [discriminate|].
  destruct (ListAllRoutesForTheApp.Resources routes) as [|first others]; exec;
    [discriminate|].
  destruct (reply_CliCommandWithoutTerminalOutput W _ _) as [output' err']. exec.
  destruct (json_RetrieveAParticularDomain C _) as [domain|]; exec; [|discriminate].
  destruct (decide (Route.Host (Route.Entity first) ≠ "")); exec; eauto.
Qed.

End Resolution.

Lemma filter_drop_keep {A} (p : A -> bool) (l1 l2 : list A) :
  Forall (fun e => p e = false) l1 -> Forall (fun e => p e = true) l2 ->
  List.filter p (l1 ++ l2) = l2.
Proof.
  intros H1 H2. rewrite (filter_drop_then p l1 l2 H1).
  rewrite <- (app_nil_r l2) at 1. apply filter_keep_drop; [exact H2|constructor].
Qed.

Section Lifecycle.

Variable W : World.
Variable C : Codec.




End Lifecycle.

(** ** Resolution, registration, deployment and the repo *)

(** C2.  Route resolution, from the application search to the domain:
    when the search has a first match, the application's record is there,
    the routes collection counts at least one entry (total_results is not 0)
    and holds a first route, and the domain record is there, the result is
    host.domain if the first route has a host, and the bare domain if not. *)
Theorem route_resolution_composes_host_and_domain
        (W : World) (C : Codec) (app : App.t) (r : SeedRepo.t) (h : list Event)
        (guid : string) (found : PaginatedApplicationResources.t)
        (first : ApplicationResource.t) (more : list ApplicationResource.t)
        (info : RetrieveAParticularApp.t) (routes : ListAllRoutesForTheApp.t)
        (route : Route.t) (others : list Route.t) (domain : RetrieveAParticularDomain.t) :
  let search := appQuery guid (App.Name app) in
  let detail := "/v2/apps/" +:+ ApplicationResource.Guid
                  (ApplicationResource.Metadata (ApplicationResource.Resource first)) in
  let routesURL := RetrieveAParticularApp.RoutesURL (RetrieveAParticularApp.Entity info) in
  let domainURL := Route.DomainURL (Route.Entity route) in
  let host := Route.Host (Route.Entity route) in
  let name := RetrieveAParticularDomain.Name (RetrieveAParticularDomain.Entity domain) in
  reply_SpaceFields W h = inl guid ->
  json_PaginatedApplicationResources C (answer W (h ++ [SpaceFields]) search) = Some found ->
  PaginatedApplicationResources.Resources found = first :: more ->
  json_RetrieveAParticularApp C (answer W (h ++ [SpaceFields; curl search]) detail)
  = Some info ->
  json_ListAllRoutesForTheApp C
    (answer W (h ++ [SpaceFields; curl search; curl detail]) routesURL) = Some routes ->
  ListAllRoutesForTheApp.TotalResults routes <> 0%Z ->
  ListAllRoutesForTheApp.Resources routes = route :: others ->
  json_RetrieveAParticularDomain C
    (answer W (h ++ [SpaceFields; curl search; curl detail; curl routesURL]) domainURL)
  = Some domain ->
  outcome ((getAppInfo W C app ≫= firstAppRoute W C) r h)
  = Returned (if decide (host = "") then name else host +:+ "." +:+ name, None).
Proof.
  cbv zeta. intros Hguid Hfound Hfirst Hinfo Hroutes Htotal Hroute Hdomain.
  destruct (getAppInfo_found W C app r h guid found first more Hguid Hfound Hfirst)
    as (Ho & He & Hs).
  rewrite outcome_bind, Ho, He, Hs, Hinfo.
  eapply firstAppRoute_found; eauto.
  rewrite <- app_assoc. exact Hdomain.
Qed.

(** [firstAppRoute] on a routes collection that counts no entry: the
    error names the application record it was given, and the domain is never
    asked for. *)
Lemma firstAppRoute_no_routes
      (W : World) (C : Codec) (info : RetrieveAParticularApp.t) (r : SeedRepo.t)
      (h : list Event) (routes : ListAllRoutesForTheApp.t) :
  let routesURL := RetrieveAParticularApp.RoutesURL (RetrieveAParticularApp.Entity info) in
  let name := RetrieveAParticularApp.Name (RetrieveAParticularApp.Entity info) in
  json_ListAllRoutesForTheApp C (answer W h routesURL) = Some routes ->
  ListAllRoutesForTheApp.TotalResults routes = 0%Z ->
  outcome (firstAppRoute W C (Some info) r h)
  = Returned ("", Some ("App '" +:+ name +:+ "' has no routes")) /\
  emitted (firstAppRoute W C (Some info) r h) = [curl routesURL].
Proof.
  cbv zeta. intros Hroutes Htotal.
  unfold firstAppRoute, conn_CliCommandWithoutTerminalOutput, answer, curl in *.
  exec. destruct (reply_CliCommandWithoutTerminalOutput W h _) as [output err].
  cbn [fst] in Hroutes. rewrite Hroutes. exec.
  destruct (decide (ListAllRoutesForTheApp.TotalResults routes = 0%Z)); [|contradiction].
  exec. split; reflexivity.
Qed.

(** C3, for a search that finds the application.  Route resolution, from
    the application search on: when the search has a first match, the
    application's record is there and its routes collection counts no entry
    (total_results is 0), the result is the error App '<name>' has no routes,
    with the name of the application's record, and the empty string as route.
    This holds whichever application the search found and whatever the
    platform would answer about domains: the domain is never asked for. *)
Theorem resolution_without_routes_is_an_error
        (W : World) (C : Codec) (app : App.t) (r : SeedRepo.t) (h : list Event)
        (guid : string) (found : PaginatedApplicationResources.t)
        (first : ApplicationResource.t) (more : list ApplicationResource.t)
        (info : RetrieveAParticularApp.t) (routes : ListAllRoutesForTheApp.t) :
  let search := appQuery guid (App.Name app) in
  let detail := "/v2/apps/" +:+ ApplicationResource.Guid
                  (ApplicationResource.Metadata (ApplicationResource.Resource first)) in
  let routesURL := RetrieveAParticularApp.RoutesURL (RetrieveAParticularApp.Entity info) in
  let name := RetrieveAParticularApp.Name (RetrieveAParticularApp.Entity info) in
  reply_SpaceFields W h = inl guid ->
  json_PaginatedApplicationResources C (answer W (h ++ [SpaceFields]) search) = Some found ->
  PaginatedApplicationResources.Resources found = first :: more ->
  json_RetrieveAParticularApp C (answer W (h ++ [SpaceFields; curl search]) detail)
  = Some info ->
  json_ListAllRoutesForTheApp C
    (answer W (h ++ [SpaceFields; curl search; curl detail]) routesURL) = Some routes ->
  ListAllRoutesForTheApp.TotalResults routes = 0%Z ->
  outcome ((getAppInfo W C app ≫= firstAppRoute W C) r h)
  = Returned ("", Some ("App '" +:+ name +:+ "' has no routes")) /\
  emitted ((getAppInfo W C app ≫= firstAppRoute W C) r h)
  = [SpaceFields; curl search; curl detail; curl routesURL].
Proof.
  cbv zeta. intros Hguid Hfound Hfirst Hinfo Hroutes Htotal.
  destruct (getAppInfo_found W C app r h guid found first more Hguid Hfound Hfirst)
    as (Ho & He & Hs).
  destruct (firstAppRoute_no_routes W C info r _ routes Hroutes Htotal) as [Ho2 He2].
  rewrite outcome_bind, emitted_bind, Ho, He, Hs, Hinfo, Ho2, He2. auto.
Qed.

Section Registration.

Variable W : World.
Variable C : Codec.

Lemma forRange_one {A} (x : A) (body : A -> M (option error)) r h :
  emitted (forRange [x] body r h) = emitted (body x r h).
Proof.
  cbn [forRange]. change (bind (body x) ?f) with (body x ≫= f). rewrite emitted_bind.
  destruct (outcome (body x r h)) as [[e|]|c|msg]; apply app_nil_r.
Qed.

Lemma emitted_enableServiceAccess service r h :
  emitted (enableServiceAccess W service r h) = [enable_access service].
Proof. apply emitted_access_bodies. Qed.

Lemma emitted_createServiceBroker broker r h :
  emitted (createServiceBroker W broker r h)
  = [create_broker broker (ServiceBroker.Url broker)].
Proof.
  unfold createServiceBroker, conn_CliCommand. rewrite call_bind. cbv zeta.
  destruct (reply_CliCommand W _ _) as [out err]. reflexivity.
Qed.

End Registration.

(** C4, with four queries.  A registration that returns nil has issued exactly four
    queries, the application search, the application's record, its routes
    and the first route's domain, then create-service-broker with the
    broker's name, username, password and https:// followed by the resolved
    route, then enable-service-access for the single grant. *)
Theorem registration_issues_four_queries
        (W : World) (C : Codec) (app : App.t) (r : SeedRepo.t) (h : list Event)
        (service : Service.t) :
  App.ServiceAccess app = [service] ->
  outcome (setAppAsService W C app r h) = Returned None ->
  exists guid appGuid routesURL domainURL route,
    emitted (setAppAsService W C app r h)
    = [SpaceFields;
       curl (appQuery guid (App.Name app)); curl ("/v2/apps/" +:+ appGuid);
       curl routesURL; curl domainURL;
       create_broker (App.ServiceBroker app) ("https://" +:+ route);
       enable_access service] /\
    outcome ((getAppInfo W C app ≫= firstAppRoute W C) r h) = Returned (route, None) /\
    length (List.filter is_query (emitted (setAppAsService W C app r h))) = 4.
Proof.
  intros Hgrant Hret. unfold setAppAsService in Hret.
  apply outcome_bind_Returned in Hret as (appInfo & H1 & Hret).
  apply outcome_bind_Returned in Hret as ([route [e|]] & H2 & Hret); [discriminate|].
  cbv zeta in Hret. apply outcome_bind_Returned in Hret as ([e|] & H3 & Hret);
    [discriminate|].
  destruct (getAppInfo_inv W C app r h appInfo H1) as (guid & appGuid & E1).
  destruct (firstAppRoute_inv W C appInfo _ _ route H2) as (routesURL & domainURL & E2).
  exists guid, appGuid, routesURL, domainURL, route.
  assert (E : emitted (setAppAsService W C app r h)
           = [SpaceFields;
              curl (appQuery guid (App.Name app)); curl ("/v2/apps/" +:+ appGuid);
              curl routesURL; curl domainURL;
              create_broker (App.ServiceBroker app) ("https://" +:+ route);
              enable_access service]).
  { unfold setAppAsService.
    rewrite emitted_bind, H1, emitted_bind, H2. cbv zeta.
    rewrite emitted_bind, H3.
    cbn [App.ServiceAccess App.ServiceBroker App.with_ServiceBroker].
    rewrite Hgrant, forRange_one, emitted_enableServiceAccess,
      emitted_createServiceBroker, E2, E1.
    reflexivity. }
  split; [exact E|]. split.
  - rewrite outcome_bind, H1. exact H2.
  - rewrite E. reflexivity.
Qed.


(** C6.  An application with neither repo nor path: [deployApp] returns
    the error App need repo or path <name> and emits nothing at all, so no
    call reaches the platform. *)
Theorem deployApp_without_source_is_an_error
        (W : World) (app : App.t) (r : SeedRepo.t) (h : list Event) :
  App.Repo app = "" -> App.Path app = "" ->
  outcome (deployApp W app r h) = Returned (Some ("App need repo or path " +:+ App.Name app)) /\
  emitted (deployApp W app r h) = [] /\
  store (deployApp W app r h) = r.
Proof.
  intros Hrepo Hpath. unfold deployApp. cbv zeta.
  destruct (decide (App.Repo app ≠ "")); [contradiction|].
  destruct (decide (App.Path app ≠ "")); [contradiction|].
  repeat split.
Qed.

(** C7.  Repository mode with a directory apps/<name> that holds a file:
    [deployApp] asks for the working directory, makes sure the directory is
    there, lists it, and pushes with -p on that directory; git is neither
    looked up nor run. *)
Theorem deployApp_reuses_fetched_source
        (W : World) (app : App.t) (r : SeedRepo.t) (h : list Event) :
  let appPath := reply_Getwd W h +:+ "/apps/" +:+ App.Name app in
  App.Repo app <> "" ->
  reply_ReadDir W (h ++ [Getwd; MkdirAll appPath]) appPath <> [] ->
  emitted (deployApp W app r h)
  = [Getwd; MkdirAll appPath; ReadDir appPath;
     CliCommand (pushArgs app ["push"; App.Name app; "-p"; appPath])] /\
  outcome (deployApp W app r h) = Returned None.
Proof.
  cbv zeta. intros Hrepo Hfiles. unfold deployApp. cbv zeta.
  destruct (decide (App.Repo app ≠ "")); [|contradiction].
  rewrite !call_bind. cbv zeta. cbn [emitted outcome].
  rewrite <- app_assoc. cbn [List.app].
  destruct (reply_ReadDir W _ _) as [|file files]; [contradiction|].
  destruct (decide (length (file :: files) = 0)); [discriminate|].
  split; reflexivity.
Qed.

(** C8, at the failing input: on a platform where the push fails,
    [deployApp] of {name: api, path: ./api} issues the push and returns nil:
    the error of the push is dropped. *)
Theorem deployApp_drops_the_push_error :
  reply_CliCommand failingWorld [] ["push"; "api"; "-p"; "./api"] = ([], Some "FAILED") /\
  emitted (deployApp failingWorld api (repoOf api) [])
  = [CliCommand ["push"; "api"; "-p"; "./api"]] /\
  outcome (deployApp failingWorld api (repoOf api) []) = Returned None.
Proof. repeat split. Qed.

(** C9, without the write.  Neither apply nor teardown changes the repo: the
    manifest it holds when they end, every ServiceBroker url included, is
    the manifest that was loaded.  (The url is computed in the copy of the
    application that [setAppAsService] receives, and from there it goes into
    the create-service-broker command.) *)
Theorem apply_leaves_the_manifest_unchanged
        (W : World) (C : Codec) (r : SeedRepo.t) (h : list Event) :
  store (apply W C r h) = r /\ store (teardown W C r h) = r.
Proof.
  split.
  - revert r h. change (keeps (apply W C)). unfold apply.
    walk_using ltac:(first [ apply keeps_createOrganizations | apply keeps_createSpaces
                           | apply keeps_createApps | apply keeps_createServices
                           | apply keeps_fatalIf ]).
  - revert r h. change (keeps (teardown W C)). unfold teardown.
    walk_using ltac:(first [ apply keeps_deleteOrganizations | apply keeps_deleteSpaces
                           | apply keeps_deleteApps | apply keeps_deleteServices
                           | apply keeps_fatalIf ]).
Qed.

(** C10.  When the application search answers with no resource, the
    first-element access of [findAppGUID] panics: registration and
    deregistration end in a panic right after that query, not in a returned
    error. *)
Theorem zero_matches_panic
        (W : World) (C : Codec) (app : App.t) (r : SeedRepo.t) (h : list Event)
        (guid : string) (found : PaginatedApplicationResources.t) :
  let search := appQuery guid (App.Name app) in
  reply_SpaceFields W h = inl guid ->
  json_PaginatedApplicationResources C (answer W (h ++ [SpaceFields]) search) = Some found ->
  PaginatedApplicationResources.Resources found = [] ->
  outcome (index0 (PaginatedApplicationResources.Resources found) r h)
  = Panicked "index out of range" /\
  outcome (findAppGUID W C guid (App.Name app) r (h ++ [SpaceFields]))
  = Panicked "index out of range" /\
  outcome (setAppAsService W C app r h) = Panicked "index out of range" /\
  emitted (setAppAsService W C app r h) = [SpaceFields; curl search] /\
  outcome (deleteAppAsService W C app r h) = Panicked "index out of range" /\
  emitted (deleteAppAsService W C app r h) = [SpaceFields; curl search].
Proof.
  cbv zeta. intros Hguid Hfound Hnone.
  destruct (getAppInfo_no_match W C app r h guid found Hguid Hfound Hnone) as [Ho He].
  split; [by rewrite Hnone|].
  split; [by apply findAppGUID_empty with found|].
  unfold setAppAsService, deleteAppAsService.
  rewrite !outcome_bind, !emitted_bind, Ho, He. auto.
Qed.

(** ** On the sample platform *)


(** C2 on the sample platform: api resolves to api.example.com. *)
Lemma route_resolution_witness :
  outcome ((getAppInfo sampleWorld sampleCodec apiBroker
              ≫= firstAppRoute sampleWorld sampleCodec) scenarioRepo [])
  = Returned ("api.example.com", None).
Proof.
  apply (route_resolution_composes_host_and_domain
           sampleWorld sampleCodec apiBroker scenarioRepo [] "space-1"
           (PaginatedApplicationResources.mk
              [ApplicationResource.mk
                 (ApplicationResource.mkResource (ApplicationResource.mkMetadata "app-1"))])
           (ApplicationResource.mk
              (ApplicationResource.mkResource (ApplicationResource.mkMetadata "app-1")))
           []
           (RetrieveAParticularApp.mk
              (RetrieveAParticularApp.mkEntity "api" "/v2/apps/app-1/routes"))
           (ListAllRoutesForTheApp.mk 1 [Route.mk (Route.mkEntity "api" "/v2/domains/domain-1")])
           (Route.mk (Route.mkEntity "api" "/v2/domains/domain-1"))
           []
           (RetrieveAParticularDomain.mk (RetrieveAParticularDomain.mkEntity "example.com")));
    [reflexivity | reflexivity | reflexivity | reflexivity | reflexivity
    | simpl; lia | reflexivity | reflexivity].
Defined.

(** C3, as stated, fails when the search finds nothing: on a platform
    where every routes collection is empty, the resolution of ghost panics
    on the first match of the search; it returns no error. *)
Lemma empty_search_panics_before_the_routes :
  (forall h path,
     json_ListAllRoutesForTheApp sampleCodec (answer routelessWorld h path)
     = Some (ListAllRoutesForTheApp.mk 0 [])) /\
  outcome ((getAppInfo routelessWorld sampleCodec ghost
              ≫= firstAppRoute routelessWorld sampleCodec) scenarioRepo [])
  = Panicked "index out of range" /\
  ~ (exists route err,
       outcome ((getAppInfo routelessWorld sampleCodec ghost
                   ≫= firstAppRoute routelessWorld sampleCodec) scenarioRepo [])
       = Returned (route, Some err)).
Proof.
  split; [|split; [reflexivity|]].
  - intros h path. unfold answer. cbn.
    destruct (decide (["curl"; path] = ["curl"; "/v2/apps/app-1/routes"])) as [|Hne];
      [reflexivity|].
    destruct (decide (path = appQuery "space-1" "api")); [reflexivity|].
    destruct (decide (path = "/v2/apps/app-1")); [reflexivity|].
    destruct (decide (path = "/v2/apps/app-1/routes")) as [->|]; [by destruct Hne|].
    destruct (decide (path = "/v2/domains/domain-1")); reflexivity.
  - intros (route & err & H). vm_compute in H. discriminate H.
Qed.

(** C3, for a search that finds the application, when api has lost its
    routes. *)
Lemma resolution_without_routes_witness :
  outcome ((getAppInfo routelessWorld sampleCodec apiBroker
              ≫= firstAppRoute routelessWorld sampleCodec) scenarioRepo [])
  = Returned ("", Some "App 'api' has no routes") /\
  emitted ((getAppInfo routelessWorld sampleCodec apiBroker
              ≫= firstAppRoute routelessWorld sampleCodec) scenarioRepo [])
  = [SpaceFields; curl (appQuery "space-1" "api"); curl "/v2/apps/app-1";
     curl "/v2/apps/app-1/routes"].
Proof.
  apply (resolution_without_routes_is_an_error routelessWorld sampleCodec apiBroker
           scenarioRepo [] "space-1" (PaginatedApplicationResources.mk [apiFound])
           apiFound [] apiInfo (ListAllRoutesForTheApp.mk 0 []));
    reflexivity.
Defined.

(** C4, as stated, fails in the scenario: between the push and
    create-service-broker the run issues four queries, not three. *)
Lemma scenario_issues_four_queries_not_three :
  emitted (apply sampleWorld sampleCodec scenarioRepo [])
  = [CliCommand ["create-org"; "acme"];
     CliCommand ["target"; "-o"; "acme"];
     CliCommand ["create-space"; "dev"];
     CliCommand ["target"; "-o"; "acme"; "-s"; "dev"];
     CliCommand ["push"; "api"; "-p"; "./api"];
     Stdout "setting app as service";
     SpaceFields;
     curl "/v2/spaces/space-1/apps?q=name:api&inline-relations-depth=1";
     curl "/v2/apps/app-1";
     curl "/v2/apps/app-1/routes";
     curl "/v2/domains/domain-1";
     CliCommand ["create-service-broker"; "b1"; "u"; "p"; "https://api.example.com"];
     CliCommand ["enable-service-access"; "s1"; "-p"; "free"];
     CliCommand ["target"; "-o"; "acme"; "-s"; "dev"]] /\
  length (List.filter is_query (emitted (apply sampleWorld sampleCodec scenarioRepo []))) <> 3.
Proof. split; [reflexivity | vm_compute; lia]. Qed.

(** C4, with four queries, in the scenario. *)
Lemma registration_witness :
  exists guid appGuid routesURL domainURL route,
    emitted (setAppAsService sampleWorld sampleCodec apiBroker scenarioRepo [])
    = [SpaceFields;
       curl (appQuery guid "api"); curl ("/v2/apps/" +:+ appGuid);
       curl routesURL; curl domainURL;
       create_broker (App.ServiceBroker apiBroker) ("https://" +:+ route);
       enable_access grantS1] /\
    outcome ((getAppInfo sampleWorld sampleCodec apiBroker
                ≫= firstAppRoute sampleWorld sampleCodec) scenarioRepo [])
    = Returned (route, None) /\
    length (List.filter is_query
              (emitted (setAppAsService sampleWorld sampleCodec apiBroker scenarioRepo [])))
    = 4.
Proof.
  apply (registration_issues_four_queries sampleWorld sampleCodec apiBroker scenarioRepo []
           grantS1); reflexivity.
Defined.


(** C6 on an application without source. *)
Lemma deployApp_without_source_witness :
  outcome (deployApp sampleWorld apiNoSource scenarioRepo [])
  = Returned (Some "App need repo or path api") /\
  emitted (deployApp sampleWorld apiNoSource scenarioRepo []) = [] /\
  store (deployApp sampleWorld apiNoSource scenarioRepo []) = scenarioRepo.
Proof.
  apply (deployApp_without_source_is_an_error sampleWorld apiNoSource scenarioRepo []);
    reflexivity.
Defined.

(** C7 on the sample platform, where apps/api holds manifest.yml. *)
Lemma deployApp_reuses_fetched_source_witness :
  emitted (deployApp sampleWorld apiRepo scenarioRepo [])
  = [Getwd; MkdirAll "/home/seed/apps/api"; ReadDir "/home/seed/apps/api";
     CliCommand ["push"; "api"; "-p"; "/home/seed/apps/api"; "-m"; "256M"]] /\
  outcome (deployApp sampleWorld apiRepo scenarioRepo []) = Returned None.
Proof.
  apply (deployApp_reuses_fetched_source sampleWorld apiRepo scenarioRepo []);
    simpl; discriminate.
Defined.

(** C9, as stated, fails in the scenario: the broker is registered at
    https://api.example.com, and the url stored in the manifest is still
    empty when apply returns. *)
Lemma stored_url_is_not_computed :
  let x := apply sampleWorld sampleCodec scenarioRepo [] in
  outcome x = Returned tt /\
  In (CliCommand ["create-service-broker"; "b1"; "u"; "p"; "https://api.example.com"])
     (emitted x) /\
  map (fun a => ServiceBroker.Url (App.ServiceBroker a))
      (manifestApps (SeedRepo.Manifest (store x))) = [""] /\
  ~ (forall a, In a (manifestApps (SeedRepo.Manifest (store x))) ->
               App.ServiceBroker a <> ServiceBroker.empty ->
               ServiceBroker.Url (App.ServiceBroker a) = "https://api.example.com").
Proof.
  cbv zeta. split; [reflexivity|]. split; [vm_compute; tauto|]. split; [reflexivity|].
  intros H. specialize (H apiBroker). vm_compute in H.
  assert (Hurl : "" = "https://api.example.com"); [|discriminate Hurl].
  apply H; [auto | discriminate].
Qed.

(** C10 on the sample platform: the search for ghost finds nothing. *)
Lemma zero_matches_witness :
  outcome (index0 (@nil ApplicationResource.t) scenarioRepo [])
  = Panicked "index out of range" /\
  outcome (findAppGUID sampleWorld sampleCodec "space-1" "ghost" scenarioRepo [SpaceFields])
  = Panicked "index out of range" /\
  outcome (setAppAsService sampleWorld sampleCodec ghost scenarioRepo [])
  = Panicked "index out of range" /\
  emitted (setAppAsService sampleWorld sampleCodec ghost scenarioRepo [])
  = [SpaceFields; curl (appQuery "space-1" "ghost")] /\
  outcome (deleteAppAsService sampleWorld sampleCodec ghost scenarioRepo [])
  = Panicked "index out of range" /\
  emitted (deleteAppAsService sampleWorld sampleCodec ghost scenarioRepo [])
  = [SpaceFields; curl (appQuery "space-1" "ghost")].
Proof.
  apply (zero_matches_panic sampleWorld sampleCodec ghost scenarioRepo [] "space-1"
           (PaginatedApplicationResources.mk []));
    reflexivity.
Defined.

(** ** The words of a run *)

Lemma emits_forRange_in {A} P (l : list A) (body : A -> M (option error)) :
  (forall x, x ∈ l -> emits P (body x)) -> emits P (forRange l body).
Proof.
  induction l as [|x l IH]; intros Hb; simpl.
  - apply (emits_ret P).
  - apply (emits_bind P); [apply Hb, list_elem_of_here|].
    intros [e|]; [apply (emits_ret P)|].
    apply IH. intros y Hy. apply Hb. by apply list_elem_of_further.
Qed.

(** X1.  Whatever the manifest and the platform, the commands apply issues
    begin with create-org, target, create-space, push,
    create-service-broker, enable-service-access or create-service: apply
    never deletes and never disables. *)
Theorem apply_only_creates (W : World) (C : Codec) (r : SeedRepo.t) (h : list Event) :
  Forall (fun e => command_in applyWords e = true) (emitted (apply W C r h)).
Proof.
  revert r h. change (emits (fun e => command_in applyWords e = true) (apply W C)).
  unfold apply, createOrganizations, createSpaces, createApps, createServices,
    deployApp, pushWith, setAppAsService, getAppInfo, confRepo_SpaceFields_Guid,
    findAppGUID, findApp, firstAppRoute, createServiceBroker, enableServiceAccess,
    fatalIf, println, conn_CliCommand, conn_CliCommandWithoutTerminalOutput.
  cbv zeta. walk; cbn [List.app]; rewrite ?appendFlag_cons; reflexivity.
Qed.

(** X2.  Whatever the manifest and the platform, the commands teardown
    issues begin with target, disable-service-access, delete-service-broker,
    delete, delete-service, delete-space or delete-org: teardown never
    creates, pushes or enables. *)
Theorem teardown_only_deletes (W : World) (C : Codec) (r : SeedRepo.t) (h : list Event) :
  Forall (fun e => command_in teardownWords e = true) (emitted (teardown W C r h)).
Proof.
  revert r h. change (emits (fun e => command_in teardownWords e = true) (teardown W C)).
  unfold teardown, deleteOrganizations, deleteSpaces, deleteApps, deleteServices,
    deleteApp, deleteAppAsService, getAppInfo, confRepo_SpaceFields_Guid,
    findAppGUID, findApp, firstAppRoute, deleteServiceBroker, disableServiceAccess,
    fatalIf, println, conn_CliCommand, conn_CliCommandWithoutTerminalOutput.
  cbv zeta. walk; cbn [List.app]; rewrite ?appendFlag_cons; reflexivity.
Qed.

(** X3.  Every command of teardown whose first word starts with delete
    (delete, delete-service, delete-space, delete-org, delete-service-broker)
    has -f among its arguments. *)
Theorem teardown_deletes_with_force (W : World) (C : Codec) (r : SeedRepo.t)
        (h : list Event) :
  Forall carries_force (emitted (teardown W C r h)).
Proof.
  revert r h. change (emits carries_force (teardown W C)).
  unfold teardown, deleteOrganizations, deleteSpaces, deleteApps, deleteServices,
    deleteApp, deleteAppAsService, getAppInfo, confRepo_SpaceFields_Guid,
    findAppGUID, findApp, firstAppRoute, deleteServiceBroker, disableServiceAccess,
    fatalIf, println, conn_CliCommand, conn_CliCommandWithoutTerminalOutput.
  cbv zeta. walk; cbn [List.app]; rewrite ?appendFlag_cons;
    cbn [carries_force]; try exact I; try (intros _; cbn [In]; tauto);
    intros Hdelete; discriminate Hdelete.
Qed.

(** ** Exits *)

Section Loud.

Context {A B : Type}.

Lemma loud_ret (a : A) : always (@loud) (mret a : M A).
Proof. intros r h. exact I. Qed.

Lemma loud_call (e : Event) (reply : list Event -> A) : always (@loud) (call e reply).
Proof. intros r h. exact I. Qed.

Lemma loud_deref (p : option A) : always (@loud) (deref p).
Proof. destruct p; intros r h; exact I. Qed.

Lemma loud_index0 (l : list A) : always (@loud) (index0 l).
Proof. destruct l; intros r h; exact I. Qed.

Lemma loud_bind (m : M A) (f : A -> M B) :
  always (@loud) m -> (forall a, always (@loud) (f a)) -> always (@loud) (m ≫= f).
Proof.
  intros Hm Hf r h. specialize (Hm r h). unfold loud in *.
  rewrite outcome_bind, emitted_bind.
  destruct (outcome (m r h)) as [a|c|msg]; [|by rewrite app_nil_r|exact I].
  specialize (Hf a (store (m r h)) (h ++ emitted (m r h))). unfold loud in Hf.
  destruct (outcome (f a _ _)); [exact I| |exact I].
  destruct Hf as (Hc & e & He). split; [exact Hc|]. exists e.
  rewrite last_app, He. reflexivity.
Qed.

End Loud.

Lemma loud_getRepo : always (@loud) getRepo.
Proof. intros r h. exact I. Qed.

Lemma loud_fatalIf err : always (@loud) (fatalIf err).
Proof.
  destruct err as [e|]; intros r h; [|exact I].
  split; [reflexivity|]. exists e. reflexivity.
Qed.

Lemma loud_forRange {A} (l : list A) (body : A -> M (option error)) :
  (forall x, always (@loud) (body x)) -> always (@loud) (forRange l body).
Proof.
  intros Hb. induction l as [|x l IH]; simpl.
  - apply (loud_ret None).
  - apply loud_bind; [apply Hb|]. intros [e|]; [apply (loud_ret (Some e)) | apply IH].
Qed.

Ltac stroll :=
  repeat first
    [ apply loud_fatalIf
    | apply loud_bind
    | apply loud_ret
    | apply loud_getRepo
    | apply loud_deref
    | apply loud_index0
    | apply loud_forRange
    | apply loud_call
    | progress intros
    | match goal with
      | |- context [match ?x with _ => _ end] => destruct x
      end ].

(** X4.  When apply or teardown ends the process with an exit, the status
    is 1 and the last thing done before it is printing the line
    error: <message>. *)
Theorem exits_are_loud (W : World) (C : Codec) (r : SeedRepo.t) (h : list Event) :
  loud (apply W C r h) /\ loud (teardown W C r h).
Proof.
  split; revert r h.
  - change (always (@loud) (apply W C)).
    unfold apply, createOrganizations, createSpaces, createApps, createServices,
      deployApp, pushWith, setAppAsService, getAppInfo, confRepo_SpaceFields_Guid,
      findAppGUID, findApp, firstAppRoute, createServiceBroker, enableServiceAccess,
      println, conn_CliCommand, conn_CliCommandWithoutTerminalOutput.
    cbv zeta. stroll.
  - change (always (@loud) (teardown W C)).
    unfold teardown, deleteOrganizations, deleteSpaces, deleteApps, deleteServices,
      deleteApp, deleteAppAsService, getAppInfo, confRepo_SpaceFields_Guid,
      findAppGUID, findApp, firstAppRoute, deleteServiceBroker, disableServiceAccess,
      println, conn_CliCommand, conn_CliCommandWithoutTerminalOutput.
    cbv zeta. stroll.
Qed.

(** ** Manifests without brokers *)

Section Brokerless.

Context {A B : Type}.

Lemma brokerless_ret (a : A) : brokerless_run (mret a : M A).
Proof. intros r h _. repeat split. constructor. Qed.

Lemma brokerless_call (e : Event) (reply : list Event -> A) :
  brokerless e = true -> brokerless_run (call e reply).
Proof. intros He r h _. repeat split. cbn. auto. Qed.

Lemma brokerless_exit code : brokerless_run (@os_Exit A code).
Proof. intros r h _. repeat split. constructor. Qed.

Lemma brokerless_bind (m : M A) (f : A -> M B) :
  brokerless_run m -> (forall a, brokerless_run (f a)) -> brokerless_run (m ≫= f).
Proof.
  intros Hm Hf r h Hr. destruct (Hm r h Hr) as (Hem & Hst & Hcalm).
  unfold calm in *. rewrite emitted_bind, store_bind, outcome_bind.
  destruct (outcome (m r h)) as [a|c|msg]; [|by rewrite app_nil_r|contradiction].
  rewrite Hst. destruct (Hf a r (h ++ emitted (m r h)) Hr) as (Hef & Hsf & Hcf).
  split; [by apply Forall_app|]. split; assumption.
Qed.

Lemma brokerless_getRepo (f : SeedRepo.t -> M B) :
  (forall r, no_brokers r -> brokerless_run (f r)) -> brokerless_run (getRepo ≫= f).
Proof.
  intros Hf r h Hr. unfold calm.
  destruct (getRepo_bind f r h) as (-> & -> & ->). exact (Hf r Hr r h Hr).
Qed.

End Brokerless.

Lemma brokerless_fatalIf err : brokerless_run (fatalIf err).
Proof.
  destruct err as [e|]; [|apply (brokerless_ret tt)].
  unfold fatalIf, println.
  apply brokerless_bind; [by apply brokerless_call | intros _; apply brokerless_exit].
Qed.

Lemma brokerless_forRange {A} (l : list A) (body : A -> M (option error)) :
  (forall x, x ∈ l -> brokerless_run (body x)) -> brokerless_run (forRange l body).
Proof.
  induction l as [|x l IH]; intros Hb; simpl.
  - apply (brokerless_ret None).
  - apply brokerless_bind; [apply Hb, list_elem_of_here|].
    intros [e|]; [apply (brokerless_ret (Some e))|].
    apply IH. intros y Hy. apply Hb. by apply list_elem_of_further.
Qed.

Lemma brokerless_deployApp W app : brokerless_run (deployApp W app).
Proof.
  unfold deployApp, pushWith, conn_CliCommand. cbv zeta.
  repeat first
    [ apply brokerless_bind | apply brokerless_ret
    | apply brokerless_call; cbn [List.app]; rewrite ?appendFlag_cons; reflexivity
    | progress intros
    | match goal with
      | |- context [match ?x with _ => _ end] => destruct x
      end ].
Qed.

Lemma manifestApps_elem r org space app :
  org ∈ SeederManifest.Organizations (SeedRepo.Manifest r) ->
  space ∈ Organization.Spaces org -> app ∈ Space.Apps space ->
  app ∈ manifestApps (SeedRepo.Manifest r).
Proof.
  intros Horg Hspace Happ. unfold manifestApps.
  apply list_elem_of_In, in_flat_map. exists org. split; [by apply list_elem_of_In|].
  apply in_flat_map. exists space. split; by apply list_elem_of_In.
Qed.

(** An application of a manifest without brokers is not flagged. *)
Ltac flagged :=
  match goal with
  | H : App.ServiceBroker _ ≠ ServiceBroker.empty, Hn : no_brokers _ |- _ =>
      solve [exfalso; apply H; apply Hn; eauto using manifestApps_elem]
  end.

(** X5.  On a manifest in which no application carries a service broker,
    apply and teardown issue no query, do not read the targeted space,
    issue no broker or service-access command, and do not panic. *)
Theorem brokerless_manifests_need_no_query
        (W : World) (C : Codec) (r : SeedRepo.t) (h : list Event) :
  no_brokers r ->
  (Forall (fun e => brokerless e = true) (emitted (apply W C r h)) /\
   calm (apply W C r h)) /\
  (Forall (fun e => brokerless e = true) (emitted (teardown W C r h)) /\
   calm (teardown W C r h)).
Proof.
  intros Hr.
  assert (Happly : brokerless_run (apply W C)).
  { unfold apply, createOrganizations, createSpaces, createApps, createServices,
      conn_CliCommand, println.
    repeat first
      [ flagged
      | apply brokerless_fatalIf
      | apply brokerless_getRepo; intros r0 Hr0
      | apply brokerless_bind; [|intros ?]
      | apply brokerless_ret
      | apply brokerless_call; reflexivity
      | apply brokerless_forRange; intros ? ?
      | apply brokerless_deployApp
      | match goal with
        | |- brokerless_run (match ?x with _ => _ end) => destruct x
        end ]. }
  assert (Hteardown : brokerless_run (teardown W C)).
  { unfold teardown, deleteOrganizations, deleteSpaces, deleteApps, deleteServices,
      deleteApp, conn_CliCommand.
    repeat first
      [ flagged
      | apply brokerless_fatalIf
      | apply brokerless_getRepo; intros r0 Hr0
      | apply brokerless_bind; [|intros ?]
      | apply brokerless_ret
      | apply brokerless_call; reflexivity
      | apply brokerless_forRange; intros ? ?
      | match goal with
        | |- brokerless_run (match ?x with _ => _ end) => destruct x
        end ]. }
  destruct (Happly r h Hr) as (H1 & _ & H2). destruct (Hteardown r h Hr) as (H3 & _ & H4).
  auto.
Qed.

(** ** Loops that run to the end, loops that stop *)

Lemma flat_map_singleton {A B} (f : A -> B) (l : list A) :
  flat_map (fun x => [f x]) l = map f l.
Proof. induction l as [|x l IH]; simpl; [reflexivity|]. by rewrite IH. Qed.

(** A loop all of whose rounds return nil issues the events of every
    round, in order, and returns nil. *)
Lemma forRange_all {A} (ev : A -> list Event) (body : A -> M (option error)) (l : list A) :
  (forall x r h, x ∈ l ->
     emitted (body x r h) = ev x /\ store (body x r h) = r /\
     outcome (body x r h) = Returned None) ->
  forall r h,
    emitted (forRange l body r h) = flat_map ev l /\
    store (forRange l body r h) = r /\
    outcome (forRange l body r h) = Returned None.
Proof.
  induction l as [|x l IH]; intros Hb r h; [repeat split|].
  cbn [forRange flat_map]. change (bind (body x) ?f) with (body x ≫= f).
  destruct (Hb x r h (list_elem_of_here _ _)) as (He & Hs & Ho).
  rewrite emitted_bind, store_bind, outcome_bind, Ho, He, Hs.
  destruct (IH (fun y r' h' Hy => Hb y r' h' (list_elem_of_further _ _ _ Hy)) r (h ++ ev x))
    as (He' & Hs' & Ho').
  rewrite He', Hs', Ho'. auto.
Qed.

(** A loop of single calls stops at the first call that fails and returns
    its error. *)
Lemma forRange_stops {A} (ev : A -> Event) (body : A -> M (option error))
      (before : list A) (x : A) (after : list A) (e : error) r h :
  (forall y r' h', emitted (body y r' h') = [ev y] /\ store (body y r' h') = r') ->
  (forall i y, before !! i = Some y ->
     outcome (body y r (h ++ map ev (take i before))) = Returned None) ->
  outcome (body x r (h ++ map ev before)) = Returned (Some e) ->
  outcome (forRange (before ++ x :: after) body r h) = Returned (Some e) /\
  emitted (forRange (before ++ x :: after) body r h) = map ev (before ++ [x]).
Proof.
  intros Hb. revert h. induction before as [|y before IH]; intros h Hok Hfail.
  - cbn [List.app forRange map] in *. change (bind (body x) ?f) with (body x ≫= f).
    rewrite app_nil_r in Hfail.
    rewrite outcome_bind, emitted_bind, Hfail. destruct (Hb x r h) as [-> _]. auto.
  - cbn [List.app forRange map] in *. change (bind (body y) ?f) with (body y ≫= f).
    pose proof (Hok 0 y eq_refl) as Hy. cbn in Hy. rewrite app_nil_r in Hy.
    destruct (Hb y r h) as [Hey Hsy].
    rewrite outcome_bind, emitted_bind, Hy, Hey, Hsy.
    destruct (IH (h ++ [ev y])) as [Ho He].
    + intros i z Hz. rewrite <- app_assoc. exact (Hok (S i) z Hz).
    + rewrite <- app_assoc. exact Hfail.
    + rewrite Ho, He. auto.
Qed.

Section Levels.

Variable W : World.

Lemma create_call_body args r h :
  emitted (('(_, err) ← conn_CliCommand W args; mret err) r h) = [CliCommand args] /\
  store (('(_, err) ← conn_CliCommand W args; mret err) r h) = r /\
  outcome (('(_, err) ← conn_CliCommand W args; mret err) r h)
  = Returned (snd (reply_CliCommand W h args)).
Proof.
  unfold conn_CliCommand. exec. destruct (reply_CliCommand W h args) as [out err].
  exec. auto.
Qed.

Lemma target_then (args : list string) (k : M (option error)) r h :
  emitted ((conn_CliCommand W args;; k) r h)
  = CliCommand args :: emitted (k r (h ++ [CliCommand args])) /\
  store ((conn_CliCommand W args;; k) r h) = store (k r (h ++ [CliCommand args])) /\
  outcome ((conn_CliCommand W args;; k) r h) = outcome (k r (h ++ [CliCommand args])).
Proof. unfold conn_CliCommand. exec. auto. Qed.

(** Every command but target succeeds. *)
Hypothesis commands_succeed :
  forall h args, hd "" args <> "target" -> snd (reply_CliCommand W h args) = None.

Lemma calls_loop {A} (f : A -> list string) (l : list A) r h :
  (forall x, hd "" (f x) <> "target") ->
  emitted (forRange l (fun x => '(_, err) ← conn_CliCommand W (f x); mret err) r h)
  = map (fun x => CliCommand (f x)) l /\
  store (forRange l (fun x => '(_, err) ← conn_CliCommand W (f x); mret err) r h) = r /\
  outcome (forRange l (fun x => '(_, err) ← conn_CliCommand W (f x); mret err) r h)
  = Returned None.
Proof.
  intros Hf. rewrite <- flat_map_singleton.
  apply (forRange_all (fun x => [CliCommand (f x)])).
  intros x r' h' _. destruct (create_call_body (f x) r' h') as (-> & -> & ->).
  rewrite commands_succeed; auto.
Qed.

Lemma createSpaces_trace r h :
  outcome (createSpaces W r h) = Returned None /\
  emitted (createSpaces W r h)
  = flat_map (fun org => target_org org :: map create_space (Organization.Spaces org))
             (SeederManifest.Organizations (SeedRepo.Manifest r)).
Proof.
  unfold createSpaces.
  destruct (getRepo_bind
    (fun repo => forRange (SeederManifest.Organizations (SeedRepo.Manifest repo))
       (fun org => conn_CliCommand W ["target"; "-o"; Organization.Name org];;
          forRange (Organization.Spaces org) (fun space =>
            '(_, err) ← conn_CliCommand W ["create-space"; Space.Name space];
            mret err))) r h) as (-> & -> & _).
  edestruct (forRange_all
    (fun org => target_org org :: map create_space (Organization.Spaces org)))
    as (He & _ & Ho); [|split; [exact Ho|exact He]].
  intros org r' h' _.
  destruct (target_then ["target"; "-o"; Organization.Name org]
              (forRange (Organization.Spaces org) (fun space =>
                 '(_, err) ← conn_CliCommand W ["create-space"; Space.Name space];
                 mret err)) r' h') as (-> & -> & ->).
  destruct (calls_loop (fun space => ["create-space"; Space.Name space])
              (Organization.Spaces org) r' (h' ++ [CliCommand ["target"; "-o"; Organization.Name org]]))
    as (-> & -> & ->); [discriminate|]. auto.
Qed.

Lemma deleteSpaces_trace r h :
  outcome (deleteSpaces W r h) = Returned None /\
  emitted (deleteSpaces W r h)
  = flat_map (fun org => target_org org :: map delete_space (Organization.Spaces org))
             (SeederManifest.Organizations (SeedRepo.Manifest r)).
Proof.
  unfold deleteSpaces.
  destruct (getRepo_bind
    (fun repo => forRange (SeederManifest.Organizations (SeedRepo.Manifest repo))
       (fun org => conn_CliCommand W ["target"; "-o"; Organization.Name org];;
          forRange (Organization.Spaces org) (fun space =>
            '(_, err) ← conn_CliCommand W ["delete-space"; Space.Name space; "-f"];
            mret err))) r h) as (-> & -> & _).
  edestruct (forRange_all
    (fun org => target_org org :: map delete_space (Organization.Spaces org)))
    as (He & _ & Ho); [|split; [exact Ho|exact He]].
  intros org r' h' _.
  destruct (target_then ["target"; "-o"; Organization.Name org]
              (forRange (Organization.Spaces org) (fun space =>
                 '(_, err) ← conn_CliCommand W ["delete-space"; Space.Name space; "-f"];
                 mret err)) r' h') as (-> & -> & ->).
  destruct (calls_loop (fun space => ["delete-space"; Space.Name space; "-f"])
              (Organization.Spaces org) r' (h' ++ [CliCommand ["target"; "-o"; Organization.Name org]]))
    as (-> & -> & ->); [discriminate|]. auto.
Qed.

Lemma createServices_trace r h :
  outcome (createServices W r h) = Returned None /\
  emitted (createServices W r h)
  = flat_map (fun org =>
      flat_map (fun space => target_space org space
                             :: map create_service (Space.Services space))
               (Organization.Spaces org))
      (SeederManifest.Organizations (SeedRepo.Manifest r)).
Proof.
  unfold createServices.
  destruct (getRepo_bind
    (fun repo => forRange (SeederManifest.Organizations (SeedRepo.Manifest repo))
       (fun org => forRange (Organization.Spaces org) (fun space =>
          conn_CliCommand W ["target"; "-o"; Organization.Name org; "-s"; Space.Name space];;
          forRange (Space.Services space) (fun service =>
            '(_, err) ← conn_CliCommand W ["create-service"; Service.Service service;
                                           Service.Plan service; Service.Name service];
            mret err)))) r h) as (-> & -> & _).
  edestruct (forRange_all
    (fun org => flat_map (fun space => target_space org space
                                       :: map create_service (Space.Services space))
                         (Organization.Spaces org)))
    as (He & _ & Ho); [|split; [exact Ho|exact He]].
  intros org r' h' _.
  apply (forRange_all
    (fun space => target_space org space :: map create_service (Space.Services space))).
  intros space r'' h'' _.
  destruct (target_then ["target"; "-o"; Organization.Name org; "-s"; Space.Name space]
              (forRange (Space.Services space) (fun service =>
                 '(_, err) ← conn_CliCommand W ["create-service"; Service.Service service;
                                                Service.Plan service; Service.Name service];
                 mret err)) r'' h'') as (-> & -> & ->).
  destruct (calls_loop
              (fun service => ["create-service"; Service.Service service;
                               Service.Plan service; Service.Name service])
              (Space.Services space) r''
              (h'' ++ [CliCommand ["target"; "-o"; Organization.Name org; "-s"; Space.Name space]]))
    as (-> & -> & ->); [discriminate|]. auto.
Qed.

Lemma deleteServices_trace r h :
  outcome (deleteServices W r h) = Returned None /\
  emitted (deleteServices W r h)
  = flat_map (fun org =>
      flat_map (fun space => target_space org space
                             :: map delete_service (Space.Services space))
               (Organization.Spaces org))
      (SeederManifest.Organizations (SeedRepo.Manifest r)).
Proof.
  unfold deleteServices.
  destruct (getRepo_bind
    (fun repo => forRange (SeederManifest.Organizations (SeedRepo.Manifest repo))
       (fun org => forRange (Organization.Spaces org) (fun space =>
          conn_CliCommand W ["target"; "-o"; Organization.Name org; "-s"; Space.Name space];;
          forRange (Space.Services space) (fun service =>
            '(_, err) ← conn_CliCommand W ["delete-service"; Service.Name service; "-f"];
            mret err)))) r h) as (-> & -> & _).
  edestruct (forRange_all
    (fun org => flat_map (fun space => target_space org space
                                       :: map delete_service (Space.Services space))
                         (Organization.Spaces org)))
    as (He & _ & Ho); [|split; [exact Ho|exact He]].
  intros org r' h' _.
  apply (forRange_all
    (fun space => target_space org space :: map delete_service (Space.Services space))).
  intros space r'' h'' _.
  destruct (target_then ["target"; "-o"; Organization.Name org; "-s"; Space.Name space]
              (forRange (Space.Services space) (fun service =>
                 '(_, err) ← conn_CliCommand W ["delete-service"; Service.Name service; "-f"];
                 mret err)) r'' h'') as (-> & -> & ->).
  destruct (calls_loop
              (fun service => ["delete-service"; Service.Name service; "-f"])
              (Space.Services space) r''
              (h'' ++ [CliCommand ["target"; "-o"; Organization.Name org; "-s"; Space.Name space]]))
    as (-> & -> & ->); [discriminate|]. auto.
Qed.

End Levels.

(** X6.  When every command but target succeeds, [createSpaces] and
    [deleteSpaces] return nil and issue, for each organization in manifest
    order, target -o <org> once and then one create-space (delete-space -f)
    per space, in order; a target that fails changes nothing to that. *)
Theorem spaces_follow_their_target (W : World) (r : SeedRepo.t) (h : list Event) :
  (forall h' args, hd "" args <> "target" -> snd (reply_CliCommand W h' args) = None) ->
  let orgs := SeederManifest.Organizations (SeedRepo.Manifest r) in
  (outcome (createSpaces W r h) = Returned None /\
   emitted (createSpaces W r h)
   = flat_map (fun org => target_org org :: map create_space (Organization.Spaces org)) orgs) /\
  (outcome (deleteSpaces W r h) = Returned None /\
   emitted (deleteSpaces W r h)
   = flat_map (fun org => target_org org :: map delete_space (Organization.Spaces org)) orgs).
Proof.
  intros Hok. cbv zeta. split; [by apply createSpaces_trace | by apply deleteSpaces_trace].
Qed.

(** X7.  When every command but target succeeds, [createServices] and
    [deleteServices] return nil and issue, for each space of each
    organization in manifest order, target -o <org> -s <space> once and then
    one create-service <offering> <plan> <name> (delete-service <name> -f)
    per service, in order. *)
Theorem services_follow_their_target (W : World) (r : SeedRepo.t) (h : list Event) :
  (forall h' args, hd "" args <> "target" -> snd (reply_CliCommand W h' args) = None) ->
  let orgs := SeederManifest.Organizations (SeedRepo.Manifest r) in
  (outcome (createServices W r h) = Returned None /\
   emitted (createServices W r h)
   = flat_map (fun org =>
       flat_map (fun space => target_space org space
                              :: map create_service (Space.Services space))
                (Organization.Spaces org)) orgs) /\
  (outcome (deleteServices W r h) = Returned None /\
   emitted (deleteServices W r h)
   = flat_map (fun org =>
       flat_map (fun space => target_space org space
                              :: map delete_service (Space.Services space))
                (Organization.Spaces org)) orgs).
Proof.
  intros Hok. cbv zeta.
  split; [by apply createServices_trace | by apply deleteServices_trace].
Qed.

(** X8.  [createOrganizations] stops at the first create-org that fails:
    it has issued the commands up to and including that one and returns its
    error; apply then prints error: <message> and exits with status 1, having
    issued nothing else. *)
Theorem createOrganizations_stops_at_first_failure
        (W : World) (C : Codec) (r : SeedRepo.t) (h : list Event)
        (before : list Organization.t) (org : Organization.t)
        (after : list Organization.t) (e : error) :
  SeederManifest.Organizations (SeedRepo.Manifest r) = before ++ org :: after ->
  (forall i org', before !! i = Some org' ->
     snd (reply_CliCommand W (h ++ map create_org (take i before))
                           ["create-org"; Organization.Name org']) = None) ->
  snd (reply_CliCommand W (h ++ map create_org before)
                        ["create-org"; Organization.Name org]) = Some e ->
  outcome (createOrganizations W r h) = Returned (Some e) /\
  emitted (createOrganizations W r h) = map create_org (before ++ [org]) /\
  outcome (apply W C r h) = Exited 1 /\
  emitted (apply W C r h)
  = map create_org (before ++ [org]) ++ [Stdout ("error: " +:+ e)].
Proof.
  intros Horgs Hok Hfail.
  assert (H : outcome (createOrganizations W r h) = Returned (Some e) /\
              emitted (createOrganizations W r h) = map create_org (before ++ [org])).
  { unfold createOrganizations.
    destruct (getRepo_bind
      (fun repo => forRange (SeederManifest.Organizations (SeedRepo.Manifest repo))
         (fun org => '(_, err) ← conn_CliCommand W ["create-org"; Organization.Name org];
                     mret err)) r h) as (-> & -> & _).
    rewrite Horgs. apply (forRange_stops create_org).
    - intros y r' h'. destruct (create_call_body W ["create-org"; Organization.Name y] r' h')
        as (-> & -> & _). auto.
    - intros i y Hy.
      destruct (create_call_body W ["create-org"; Organization.Name y] r
                  (h ++ map create_org (take i before))) as (_ & _ & ->).
      by rewrite (Hok i y Hy).
    - destruct (create_call_body W ["create-org"; Organization.Name org] r
                  (h ++ map create_org before)) as (_ & _ & ->).
      by rewrite Hfail. }
  destruct H as [Ho He]. split; [exact Ho|]. split; [exact He|].
  unfold apply. rewrite outcome_bind, emitted_bind, Ho, He.
  unfold fatalIf, println. exec. auto.
Qed.

(** ** Levels of a run *)

Lemma command_in_not (words : list string) (name : string) (e : Event) :
  existsb (String.eqb name) words = false ->
  command_in words e = true -> is_command name e = false.
Proof.
  intros Hname. destruct e as [[|c args]| | | | | | | | |]; cbn; try reflexivity.
  intros Hc. destruct (String.eqb c name) eqn:E; [|reflexivity].
  apply String.eqb_eq in E. subst c. congruence.
Qed.

Lemma emits_words {A} (words : list string) (name : string) (m : M A) :
  existsb (String.eqb name) words = false ->
  emits (fun e => command_in words e = true) m ->
  emits (fun e => is_command name e = false) m.
Proof.
  intros Hname Hm r h. eapply Forall_impl; [apply Hm|].
  intros e. by apply command_in_not.
Qed.

Section Words.

Variable W : World.
Variable C : Codec.

Lemma words_createOrganizations :
  emits (fun e => command_in ["create-org"] e = true) (createOrganizations W).
Proof. unfold createOrganizations, conn_CliCommand. walk; reflexivity. Qed.

Lemma words_createSpaces :
  emits (fun e => command_in ["target"; "create-space"] e = true) (createSpaces W).
Proof. unfold createSpaces, conn_CliCommand. walk; reflexivity. Qed.

Lemma words_createApps :
  emits (fun e => command_in ["target"; "push"; "create-service-broker";
                              "enable-service-access"] e = true) (createApps W C).
Proof.
  unfold createApps, deployApp, pushWith, setAppAsService, getAppInfo,
    confRepo_SpaceFields_Guid, findAppGUID, findApp, firstAppRoute, createServiceBroker,
    enableServiceAccess, fatalIf, println, conn_CliCommand,
    conn_CliCommandWithoutTerminalOutput.
  cbv zeta. walk; cbn [List.app]; rewrite ?appendFlag_cons; reflexivity.
Qed.

Lemma words_deleteApps :
  emits (fun e => command_in ["target"; "disable-service-access"; "delete-service-broker";
                              "delete"] e = true) (deleteApps W C).
Proof.
  unfold deleteApps, deleteApp, deleteAppAsService, getAppInfo,
    confRepo_SpaceFields_Guid, findAppGUID, findApp, firstAppRoute, deleteServiceBroker,
    disableServiceAccess, fatalIf, println, conn_CliCommand,
    conn_CliCommandWithoutTerminalOutput.
  cbv zeta. walk; cbn [List.app]; rewrite ?appendFlag_cons; reflexivity.
Qed.

Lemma words_deleteServices :
  emits (fun e => command_in ["target"; "delete-service"] e = true) (deleteServices W).
Proof. unfold deleteServices, conn_CliCommand. walk; reflexivity. Qed.

Lemma createOrganizations_issues r h org :
  org ∈ SeederManifest.Organizations (SeedRepo.Manifest r) ->
  outcome (createOrganizations W r h) = Returned None ->
  create_org org ∈ emitted (createOrganizations W r h).
Proof.
  intros Horg Ho. destruct (createOrganizations_spec W r h) as [_ Hall].
  rewrite (Hall Ho). apply list_elem_of_fmap. eauto.
Qed.

Lemma createSpaces_issues r h org space :
  org ∈ SeederManifest.Organizations (SeedRepo.Manifest r) ->
  space ∈ Organization.Spaces org ->
  outcome (createSpaces W r h) = Returned None ->
  create_space space ∈ emitted (createSpaces W r h).
Proof.
  intros Horg Hspace. unfold createSpaces.
  destruct (getRepo_bind
    (fun repo => forRange (SeederManifest.Organizations (SeedRepo.Manifest repo))
       (fun org => conn_CliCommand W ["target"; "-o"; Organization.Name org];;
          forRange (Organization.Spaces org) (fun space =>
            '(_, err) ← conn_CliCommand W ["create-space"; Space.Name space];
            mret err))) r h) as (-> & -> & _).
  apply (issues_forRange _ _ _ org Horg).
  apply issues_bind_r. intros _.
  apply (issues_forRange _ _ _ space Hspace).
  apply issues_call.
Qed.

End Words.

(** X9.  apply works top-down: when a create-space command is issued,
    the create-org command of every organization of the manifest has been
    issued before it; when a push or a create-service command is issued, so
    has the create-space command of every space. *)
Theorem apply_creates_top_down (W : World) (C : Codec) (r : SeedRepo.t) (h : list Event) :
  let orgs := SeederManifest.Organizations (SeedRepo.Manifest r) in
  (forall pre args post,
     emitted (apply W C r h) = pre ++ CliCommand ("create-space" :: args) :: post ->
     forall org, org ∈ orgs -> create_org org ∈ pre) /\
  (forall pre word args post,
     emitted (apply W C r h) = pre ++ CliCommand (word :: args) :: post ->
     word = "push" \/ word = "create-service" ->
     forall org space, org ∈ orgs -> space ∈ Organization.Spaces org ->
                       create_org org ∈ pre /\ create_space space ∈ pre).
Proof.
  cbv zeta.
  assert (Hlocal : forall name e, is_CliCommand e = false -> is_command name e = false)
    by (intros; by apply not_command_local).
  split.
  - intros pre args post Heq org Horg. unfold apply in Heq.
    apply (phase_before (is_command "create-space")) in Heq as (Ho & pre1 & -> & _);
      [| apply Hlocal
       | by apply (emits_words ["create-org"]), words_createOrganizations
       | apply keeps_createOrganizations | reflexivity].
    apply elem_of_app. left. by apply createOrganizations_issues.
  - intros pre word args post Heq Hword org space Horg Hspace. unfold apply in Heq.
    assert (Hnot : existsb (String.eqb word) ["create-org"] = false /\
                   existsb (String.eqb word) ["target"; "create-space"] = false)
      by (destruct Hword; subst word; split; reflexivity).
    destruct Hnot as [Hnot1 Hnot2].
    apply (phase_before (is_command word)) in Heq as (Ho1 & pre1 & -> & Heq);
      [| apply Hlocal
       | by apply (emits_words ["create-org"]), words_createOrganizations
       | apply keeps_createOrganizations
       | cbn; apply String.eqb_refl].
    apply (phase_before (is_command word)) in Heq as (Ho2 & pre2 & -> & _);
      [| apply Hlocal
       | by apply (emits_words ["target"; "create-space"]), words_createSpaces
       | apply keeps_createSpaces
       | cbn; apply String.eqb_refl].
    rewrite !elem_of_app. split.
    + left. by apply createOrganizations_issues.
    + right. left. by apply createSpaces_issues with org.
Qed.

(** X10.  teardown works bottom-up below the organizations too: when a
    delete-service command is issued, the delete command of every application
    of the manifest has been issued before it; when a delete-space command is
    issued, so has the delete-service command of every service. *)
Theorem teardown_deletes_bottom_up (W : World) (C : Codec) (r : SeedRepo.t)
        (h : list Event) :
  let orgs := SeederManifest.Organizations (SeedRepo.Manifest r) in
  (forall pre args post,
     emitted (teardown W C r h) = pre ++ CliCommand ("delete-service" :: args) :: post ->
     forall org space app,
       org ∈ orgs -> space ∈ Organization.Spaces org -> app ∈ Space.Apps space ->
       delete_app app ∈ pre) /\
  (forall pre args post,
     emitted (teardown W C r h) = pre ++ CliCommand ("delete-space" :: args) :: post ->
     forall org space,
       org ∈ orgs -> space ∈ Organization.Spaces org ->
       (forall app, app ∈ Space.Apps space -> delete_app app ∈ pre) /\
       (forall service, service ∈ Space.Services space -> delete_service service ∈ pre)).
Proof.
  cbv zeta.
  assert (Hlocal : forall name e, is_CliCommand e = false -> is_command name e = false)
    by (intros; by apply not_command_local).
  split.
  - intros pre args post Heq org space app Horg Hspace Happ. unfold teardown in Heq.
    apply (phase_before (is_command "delete-service")) in Heq as (Ho & pre1 & -> & _);
      [| apply Hlocal
       | by eapply emits_words; [|apply words_deleteApps]
       | apply keeps_deleteApps | reflexivity].
    apply elem_of_app. left. by apply deleteApps_issues with org space.
  - intros pre args post Heq org space Horg Hspace. unfold teardown in Heq.
    apply (phase_before (is_command "delete-space")) in Heq as (Ho1 & pre1 & -> & Heq);
      [| apply Hlocal
       | by eapply emits_words; [|apply words_deleteApps]
       | apply keeps_deleteApps | reflexivity].
    apply (phase_before (is_command "delete-space")) in Heq as (Ho2 & pre2 & -> & _);
      [| apply Hlocal
       | by eapply emits_words; [|apply words_deleteServices]
       | apply keeps_deleteServices | reflexivity].
    split.
    + intros app Happ. rewrite !elem_of_app. left.
      by apply deleteApps_issues with org space.
    + intros service Hservice. rewrite !elem_of_app. right. left.
      by apply deleteServices_issues with org space.
Qed.

(** ** Registration and deregistration, step by step *)

Lemma prefix_of_map_take {A B} (f : A -> B) (l : list A) (t : list B) :
  t `prefix_of` map f l -> exists k, t = map f (take k l) /\ (t = map f l -> k = length l)
                                     /\ k <= length l.
Proof.
  revert t. induction l as [|x l IH]; intros t [s Hs]; simpl in *.
  - symmetry in Hs. apply app_eq_nil in Hs as [-> _]. exists 0. auto.
  - destruct t as [|y t]; [exists 0; repeat split; [discriminate|lia]|].
    injection Hs as <- Hs. destruct (IH t (ex_intro _ s Hs)) as (k & -> & Hk & Hle).
    exists (S k). repeat split; [|lia]. intros Heq. injection Heq as Heq. f_equal. auto.
Qed.

Section Steps.

Variable W : World.
Variable C : Codec.

Lemma setAppAsService_shape app r h :
  exists res tail,
    emitted (setAppAsService W C app r h) = res ++ tail /\
    Forall (fun e => is_CliCommand e = false) res /\
    ((tail = [] /\ outcome (setAppAsService W C app r h) <> Returned None /\
      forall route,
        outcome ((getAppInfo W C app ≫= firstAppRoute W C) r h) <> Returned (route, None)) \/
     exists route k,
       outcome ((getAppInfo W C app ≫= firstAppRoute W C) r h) = Returned (route, None) /\
       tail = create_broker (App.ServiceBroker app) ("https://" +:+ route)
              :: map enable_access (take k (App.ServiceAccess app)) /\
       (outcome (setAppAsService W C app r h) = Returned None ->
        k = length (App.ServiceAccess app))).
Proof.
  assert (Hlocal : forall e, is_CliCommand e = false -> is_CliCommand e = false) by auto.
  unfold setAppAsService.
  pose proof (emits_getAppInfo W C _ Hlocal app r h) as E1.
  rewrite emitted_bind, !outcome_bind.
  set (x1 := getAppInfo W C app r h) in *.
  destruct (outcome x1) as [appInfo|c|msg].
  2,3: exists (emitted x1), [];
       (split; [reflexivity|]; split; [exact E1|]; left; split;
        [reflexivity|split; [discriminate|intros route; discriminate]]).
  pose proof (emits_firstAppRoute W C _ Hlocal appInfo (store x1) (h ++ emitted x1)) as E2.
  rewrite emitted_bind, outcome_bind.
  set (x2 := firstAppRoute W C appInfo (store x1) (h ++ emitted x1)) in *.
  assert (E12 : Forall (fun e => is_CliCommand e = false) (emitted x1 ++ emitted x2))
    by (by apply Forall_app).
  destruct (outcome x2) as [[appRoute [e|]]|c|msg].
  1,3,4: exists (emitted x1 ++ emitted x2), [];
         (split; [by rewrite !app_nil_r|]; split; [exact E12|]; left; split;
          [reflexivity|split; [discriminate|intros route; discriminate]]).
  cbv zeta. cbn [App.ServiceAccess App.ServiceBroker App.with_ServiceBroker].
  rewrite emitted_bind, outcome_bind, emitted_createServiceBroker.
  cbn [ServiceBroker.Url ServiceBroker.with_Url].
  set (x3 := createServiceBroker W _ _ _).
  destruct (forRange_single enable_access (enableServiceAccess W) (App.ServiceAccess app)
              (fun service r' h' => proj2 (emitted_access_bodies W service r' h'))
              (store x3) (((h ++ emitted x1) ++ emitted x2)
                          ++ [create_broker (ServiceBroker.with_Url (App.ServiceBroker app)
                                               ("https://" +:+ appRoute))
                                            ("https://" +:+ appRoute)]))
    as (Hp & Hall & _ & _).
  exists (emitted x1 ++ emitted x2).
  destruct (outcome x3) as [[e|]|c|msg].
  1,3,4: exists [create_broker (App.ServiceBroker app) ("https://" +:+ appRoute)];
         (split; [by rewrite ?run_ret, ?app_nil_r, app_assoc|]; split; [exact E12|]; right;
          exists appRoute, 0; split; [reflexivity|]; split; [reflexivity|discriminate]).
  destruct (prefix_of_map_take _ _ _ Hp) as (k & Hk & Hfull & _).
  exists (create_broker (App.ServiceBroker app) ("https://" +:+ appRoute)
          :: map enable_access (take k (App.ServiceAccess app))).
  split; [|split; [exact E12|]].
  - unfold create_broker in *. cbn [ServiceBroker.Name ServiceBroker.Username
      ServiceBroker.Password ServiceBroker.with_Url] in *.
    rewrite Hk. by rewrite <- app_assoc.
  - right. exists appRoute, k. split; [reflexivity|]. split; [reflexivity|].
    intros Hnil. apply Hfull. unfold create_broker in *.
    cbn [ServiceBroker.Name ServiceBroker.Username ServiceBroker.Password
         ServiceBroker.with_Url] in *. by apply Hall.
Qed.

End Steps.

(** X11.  The CliCommand calls of a registration are decided by the
    resolution of the route.  When the resolution returns a route, the calls
    are create-service-broker with the broker's name, username, password and
    https:// followed by that route, then enable-service-access for the
    grants in list order, for all of them when the registration returns nil.
    When the resolution ends in any other way, there is no call and the
    registration does not return nil. *)
Theorem registration_creates_then_enables
        (W : World) (C : Codec) (app : App.t) (r : SeedRepo.t) (h : list Event) :
  let x := setAppAsService W C app r h in
  let calls := List.filter is_CliCommand (emitted x) in
  match outcome ((getAppInfo W C app ≫= firstAppRoute W C) r h) with
  | Returned (route, None) =>
      exists k,
        calls = create_broker (App.ServiceBroker app) ("https://" +:+ route)
                :: map enable_access (take k (App.ServiceAccess app)) /\
        (outcome x = Returned None -> k = length (App.ServiceAccess app))
  | _ => calls = [] /\ outcome x <> Returned None
  end.
Proof.
  cbv zeta.
  destruct (setAppAsService_shape W C app r h)
    as (res & tail & -> & Hres & [(-> & Hne & Hunresolved)
                                 | (route & k & Hroute & -> & Hk)]).
  - assert (Hcalls : List.filter is_CliCommand (res ++ []) = []).
    { apply (filter_drop_keep is_CliCommand res []); [exact Hres|constructor]. }
    destruct (outcome ((getAppInfo W C app ≫= firstAppRoute W C) r h))
      as [[route [e|]]|c|msg] eqn:Hchain; try (split; [exact Hcalls|exact Hne]).
    by destruct (Hunresolved route).
  - rewrite Hroute. exists k. split; [|exact Hk].
    apply filter_drop_keep; [exact Hres|]. constructor; [reflexivity|].
    apply Forall_map, Forall_forall. intros service _. reflexivity.
Qed.

(** X12.  An application whose routes collection counts no entry is
    neither registered nor deregistered: [setAppAsService] and
    [deleteAppAsService] return the error App '<name>' has no routes after
    the three queries, without a single CliCommand. *)
Theorem no_routes_stops_the_broker_lifecycle
        (W : World) (C : Codec) (app : App.t) (r : SeedRepo.t) (h : list Event)
        (guid : string) (found : PaginatedApplicationResources.t)
        (first : ApplicationResource.t) (more : list ApplicationResource.t)
        (info : RetrieveAParticularApp.t) (routes : ListAllRoutesForTheApp.t) :
  let search := appQuery guid (App.Name app) in
  let detail := "/v2/apps/" +:+ ApplicationResource.Guid
                  (ApplicationResource.Metadata (ApplicationResource.Resource first)) in
  let routesURL := RetrieveAParticularApp.RoutesURL (RetrieveAParticularApp.Entity info) in
  let name := RetrieveAParticularApp.Name (RetrieveAParticularApp.Entity info) in
  reply_SpaceFields W h = inl guid ->
  json_PaginatedApplicationResources C (answer W (h ++ [SpaceFields]) search) = Some found ->
  PaginatedApplicationResources.Resources found = first :: more ->
  json_RetrieveAParticularApp C (answer W (h ++ [SpaceFields; curl search]) detail)
  = Some info ->
  json_ListAllRoutesForTheApp C
    (answer W (h ++ [SpaceFields; curl search; curl detail]) routesURL) = Some routes ->
  ListAllRoutesForTheApp.TotalResults routes = 0%Z ->
  let failed := Returned (Some ("App '" +:+ name +:+ "' has no routes")) in
  let queries := [SpaceFields; curl search; curl detail; curl routesURL] in
  (outcome (setAppAsService W C app r h) = failed /\
   emitted (setAppAsService W C app r h) = queries) /\
  (outcome (deleteAppAsService W C app r h) = failed /\
   emitted (deleteAppAsService W C app r h) = queries).
Proof.
  cbv zeta. intros Hguid Hfound Hfirst Hinfo Hroutes Htotal.
  destruct (getAppInfo_found W C app r h guid found first more Hguid Hfound Hfirst)
    as (Ho & He & Hs).
  assert (Hfar : outcome (firstAppRoute W C (Some info) r
                    (h ++ [SpaceFields; curl (appQuery guid (App.Name app));
                           curl ("/v2/apps/" +:+ ApplicationResource.Guid
                             (ApplicationResource.Metadata (ApplicationResource.Resource first)))]))
                 = Returned ("", Some ("App '" +:+ RetrieveAParticularApp.Name
                                         (RetrieveAParticularApp.Entity info) +:+ "' has no routes"))
                 /\ emitted (firstAppRoute W C (Some info) r
                    (h ++ [SpaceFields; curl (appQuery guid (App.Name app));
                           curl ("/v2/apps/" +:+ ApplicationResource.Guid
                             (ApplicationResource.Metadata (ApplicationResource.Resource first)))]))
                 = [curl (RetrieveAParticularApp.RoutesURL (RetrieveAParticularApp.Entity info))]).
  { clear Hfound Hinfo Ho He Hs.
    unfold firstAppRoute, conn_CliCommandWithoutTerminalOutput, answer, curl in *.
    exec. destruct (reply_CliCommandWithoutTerminalOutput W _ _) as [output err].
    cbn [fst] in Hroutes. rewrite Hroutes. exec.
    destruct (decide (ListAllRoutesForTheApp.TotalResults routes = 0%Z)); [|contradiction].
    exec. auto. }
  destruct Hfar as [Ho2 He2].
  unfold setAppAsService, deleteAppAsService.
  rewrite !outcome_bind, !emitted_bind, Ho, He, Hs, Hinfo, !outcome_bind, !emitted_bind,
    Ho2, He2.
  rewrite !run_ret. cbn. auto.
Qed.

(** X13.  When the targeted space cannot be read from the CLI
    configuration, registration and deregistration print error: <message>
    and exit with status 1 before any query. *)
Theorem unreadable_configuration_exits
        (W : World) (C : Codec) (app : App.t) (r : SeedRepo.t) (h : list Event)
        (err : error) :
  reply_SpaceFields W h = inr err ->
  (outcome (setAppAsService W C app r h) = Exited 1 /\
   emitted (setAppAsService W C app r h) = [SpaceFields; Stdout ("error: " +:+ err)]) /\
  (outcome (deleteAppAsService W C app r h) = Exited 1 /\
   emitted (deleteAppAsService W C app r h) = [SpaceFields; Stdout ("error: " +:+ err)]).
Proof.
  intros Herr.
  assert (H : outcome (getAppInfo W C app r h) = Exited 1 /\
              emitted (getAppInfo W C app r h) = [SpaceFields; Stdout ("error: " +:+ err)]).
  { unfold getAppInfo, confRepo_SpaceFields_Guid, fatalIf, println. exec.
    rewrite Herr. exec. auto. }
  destruct H as [Ho He]. unfold setAppAsService, deleteAppAsService.
  rewrite !outcome_bind, !emitted_bind, Ho, He. auto.
Qed.

(** X14.  A routes answer that counts entries (total_results is not 0)
    but lists no resource makes [firstAppRoute] panic on the first-element
    access, right after the routes query. *)
Theorem counted_but_missing_route_panics
        (W : World) (C : Codec) (info : RetrieveAParticularApp.t) (r : SeedRepo.t)
        (h : list Event) (routes : ListAllRoutesForTheApp.t) :
  let routesURL := RetrieveAParticularApp.RoutesURL (RetrieveAParticularApp.Entity info) in
  json_ListAllRoutesForTheApp C (answer W h routesURL) = Some routes ->
  ListAllRoutesForTheApp.TotalResults routes <> 0%Z ->
  ListAllRoutesForTheApp.Resources routes = [] ->
  outcome (firstAppRoute W C (Some info) r h) = Panicked "index out of range" /\
  emitted (firstAppRoute W C (Some info) r h) = [curl routesURL].
Proof.
  cbv zeta. intros Hroutes Htotal Hnone.
  unfold firstAppRoute, conn_CliCommandWithoutTerminalOutput, answer, curl in *.
  exec. destruct (reply_CliCommandWithoutTerminalOutput W h _) as [output err].
  cbn [fst] in Hroutes. rewrite Hroutes. exec.
  destruct (decide (ListAllRoutesForTheApp.TotalResults routes = 0%Z)); [contradiction|].
  rewrite Hnone. exec. auto.
Qed.

(** X15.  An answer that is the JSON literal null leaves a nil pointer:
    [firstAppRoute] panics on a nil application record before any query, and
    on a nil routes collection right after the routes query. *)
Theorem null_answers_panic
        (W : World) (C : Codec) (info : RetrieveAParticularApp.t) (r : SeedRepo.t)
        (h : list Event) :
  let routesURL := RetrieveAParticularApp.RoutesURL (RetrieveAParticularApp.Entity info) in
  let nil := Panicked "invalid memory address or nil pointer dereference" in
  (outcome (firstAppRoute W C None r h) = nil /\
   emitted (firstAppRoute W C None r h) = []) /\
  (json_ListAllRoutesForTheApp C (answer W h routesURL) = None ->
   outcome (firstAppRoute W C (Some info) r h) = nil /\
   emitted (firstAppRoute W C (Some info) r h) = [curl routesURL]).
Proof.
  cbv zeta. split; [split; reflexivity|]. intros Hroutes.
  unfold firstAppRoute, conn_CliCommandWithoutTerminalOutput, answer, curl in *.
  exec. destruct (reply_CliCommandWithoutTerminalOutput W h _) as [output err].
  cbn [fst] in Hroutes. rewrite Hroutes. exec. auto.
Qed.

(** ** Deployment *)

Lemma appendFlag_app (args : list string) (flag s : string) :
  appendFlag args flag s = args ++ (if decide (s = "") then [] else [flag; s]).
Proof. unfold appendFlag. destruct (decide (s = "")); [by rewrite app_nil_r|reflexivity]. Qed.

Lemma pushArgs_optionalFlags (app : App.t) (args : list string) :
  pushArgs app args = args ++ optionalFlags app.
Proof.
  unfold pushArgs, optionalFlags. rewrite !appendFlag_app. cbn [flat_map].
  rewrite <- !app_assoc, app_nil_r. reflexivity.
Qed.

Section Fetch.

Variable W : World.

(** [deployApp] in repository mode, up to the listing of apps/<name>. *)
Lemma deployApp_lists app r h :
  App.Repo app <> "" ->
  let appPath := reply_Getwd W h +:+ "/apps/" +:+ App.Name app in
  reply_ReadDir W (h ++ [Getwd; MkdirAll appPath]) appPath = [] ->
  forall gitPath err,
    reply_LookPath W (h ++ [Getwd; MkdirAll appPath; ReadDir appPath]) "git"
    = (gitPath, err) ->
    let clone := CommandRun gitPath ["clone"; App.Repo app; appPath] in
    let listing := [Getwd; MkdirAll appPath; ReadDir appPath; LookPath "git"] in
    match err with
    | Some e =>
        outcome (deployApp W app r h) = Returned (Some e) /\
        emitted (deployApp W app r h) = listing
    | None =>
        match reply_Run W (h ++ listing) gitPath ["clone"; App.Repo app; appPath] with
        | Some _ =>
            outcome (deployApp W app r h) = Returned None /\
            emitted (deployApp W app r h) = listing ++ [clone]
        | None =>
            outcome (deployApp W app r h) = Returned None /\
            emitted (deployApp W app r h)
            = listing ++ [clone; CliCommand (pushArgs app ["push"; App.Name app; "-p"; appPath])]
        end
    end.
Proof.
  cbv zeta. intros Hrepo Hfiles gitPath err Hgit. unfold deployApp. cbv zeta.
  destruct (decide (App.Repo app ≠ "")); [|contradiction].
  exec. rewrite <- !app_assoc. cbn [List.app]. rewrite Hfiles.
  destruct (decide (length (@nil string) = 0)) as [_|Hne]; [|by destruct Hne].
  exec. rewrite <- !app_assoc. cbn [List.app]. rewrite Hgit.
  destruct err as [e|]; exec; [auto|].
  rewrite <- !app_assoc. cbn [List.app].
  destruct (reply_Run W _ gitPath _) as [e|]; exec; [auto|].
  unfold pushWith, conn_CliCommand. exec. auto.
Qed.

End Fetch.

(** X16.  Repository mode, apps/<name> empty, git not found: [deployApp]
    returns the error of the lookup; it runs no clone and issues no push. *)
Theorem deployApp_without_git_is_an_error
        (W : World) (app : App.t) (r : SeedRepo.t) (h : list Event)
        (gitPath : string) (e : error) :
  let appPath := reply_Getwd W h +:+ "/apps/" +:+ App.Name app in
  App.Repo app <> "" ->
  reply_ReadDir W (h ++ [Getwd; MkdirAll appPath]) appPath = [] ->
  reply_LookPath W (h ++ [Getwd; MkdirAll appPath; ReadDir appPath]) "git"
  = (gitPath, Some e) ->
  outcome (deployApp W app r h) = Returned (Some e) /\
  emitted (deployApp W app r h) = [Getwd; MkdirAll appPath; ReadDir appPath; LookPath "git"].
Proof.
  cbv zeta. intros Hrepo Hfiles Hgit.
  exact (deployApp_lists W app r h Hrepo Hfiles gitPath (Some e) Hgit).
Qed.

(** X17.  Repository mode, apps/<name> empty, the clone fails:
    [deployApp] returns nil all the same, and it does not push. *)
Theorem deployApp_swallows_a_failed_clone
        (W : World) (app : App.t) (r : SeedRepo.t) (h : list Event)
        (gitPath : string) (e : error) :
  let appPath := reply_Getwd W h +:+ "/apps/" +:+ App.Name app in
  let listing := [Getwd; MkdirAll appPath; ReadDir appPath; LookPath "git"] in
  App.Repo app <> "" ->
  reply_ReadDir W (h ++ [Getwd; MkdirAll appPath]) appPath = [] ->
  reply_LookPath W (h ++ [Getwd; MkdirAll appPath; ReadDir appPath]) "git"
  = (gitPath, None) ->
  reply_Run W (h ++ listing) gitPath ["clone"; App.Repo app; appPath] = Some e ->
  outcome (deployApp W app r h) = Returned None /\
  emitted (deployApp W app r h)
  = listing ++ [CommandRun gitPath ["clone"; App.Repo app; appPath]].
Proof.
  cbv zeta. intros Hrepo Hfiles Hgit Hclone.
  pose proof (deployApp_lists W app r h Hrepo Hfiles gitPath None Hgit) as H.
  cbv zeta in H. rewrite Hclone in H. exact H.
Qed.

(** X18.  Repository mode, apps/<name> empty, the clone succeeds:
    [deployApp] runs git clone <repo> <wd>/apps/<name> with the git it found
    and then pushes with -p on that directory. *)
Theorem deployApp_clones_then_pushes
        (W : World) (app : App.t) (r : SeedRepo.t) (h : list Event) (gitPath : string) :
  let appPath := reply_Getwd W h +:+ "/apps/" +:+ App.Name app in
  let listing := [Getwd; MkdirAll appPath; ReadDir appPath; LookPath "git"] in
  App.Repo app <> "" ->
  reply_ReadDir W (h ++ [Getwd; MkdirAll appPath]) appPath = [] ->
  reply_LookPath W (h ++ [Getwd; MkdirAll appPath; ReadDir appPath]) "git"
  = (gitPath, None) ->
  reply_Run W (h ++ listing) gitPath ["clone"; App.Repo app; appPath] = None ->
  outcome (deployApp W app r h) = Returned None /\
  emitted (deployApp W app r h)
  = listing ++ [CommandRun gitPath ["clone"; App.Repo app; appPath];
                CliCommand (["push"; App.Name app; "-p"; appPath] ++ optionalFlags app)].
Proof.
  cbv zeta. intros Hrepo Hfiles Hgit Hclone.
  pose proof (deployApp_lists W app r h Hrepo Hfiles gitPath None Hgit) as H.
  cbv zeta in H. rewrite Hclone, pushArgs_optionalFlags in H. exact H.
Qed.

(** X19.  Path mode: [deployApp] issues exactly one command, push <name>
    -p <path> followed by the flags -k -m -i -n -d -b -f of the fields that
    are not empty, in that order, and it returns nil whatever the platform
    answers. *)
Theorem deployApp_pushes_the_path
        (W : World) (app : App.t) (r : SeedRepo.t) (h : list Event) :
  App.Repo app = "" -> App.Path app <> "" ->
  emitted (deployApp W app r h)
  = [CliCommand (["push"; App.Name app; "-p"; App.Path app] ++ optionalFlags app)] /\
  outcome (deployApp W app r h) = Returned None /\
  store (deployApp W app r h) = r.
Proof.
  intros Hrepo Hpath. unfold deployApp. cbv zeta.
  destruct (decide (App.Repo app ≠ "")); [contradiction|].
  destruct (decide (App.Path app ≠ "")); [|contradiction].
  unfold pushWith, conn_CliCommand. exec.
  change (appendFlag _ "-f" (App.Manifest app))
    with (pushArgs app ["push"; App.Name app; "-p"; App.Path app]).
  rewrite pushArgs_optionalFlags. auto.
Qed.

(** ** The action *)

Lemma getRepo_then {B} (f : SeedRepo.t -> M B) r h :
  (getRepo ≫= f) r h = let y := f r r h in mkRes (outcome y) (store y) (emitted y).
Proof. unfold mbind, M_bind, bind. cbn. rewrite app_nil_r. reflexivity. Qed.

Lemma putRepo_then {B} (r' : SeedRepo.t) (f : unit -> M B) r h :
  (putRepo r' ≫= f) r h = let y := f tt r' h in mkRes (outcome y) (store y) (emitted y).
Proof. unfold mbind, M_bind, bind. cbn. rewrite app_nil_r. reflexivity. Qed.

(** [exec], through the reads and writes of the repo as well. *)
Ltac exec_repo :=
  repeat first [ rewrite bind_assoc | rewrite getRepo_then | rewrite putRepo_then
               | progress exec ].

(** X20.  Without a manifest nothing reaches the platform: when the
    manifest file cannot be read, or cannot be decoded, the action prints
    error: <message> and exits with status 1 right after reading the file. *)
Theorem no_manifest_no_run
        (W : World) (C : Codec) (help fileName : string) (c : bool)
        (r : SeedRepo.t) (h : list Event) (e : error) :
  let file := fst (reply_ReadFile W h fileName) in
  snd (reply_ReadFile W h fileName) = Some e \/
  (snd (reply_ReadFile W h fileName) = None /\ snd (yaml_Unmarshal C file) = Some e) ->
  outcome (Action W C help (Some fileName) c r h) = Exited 1 /\
  emitted (Action W C help (Some fileName) c r h)
  = [ReadFile fileName; Stdout ("error: " +:+ e)].
Proof.
  cbv zeta. intros H. unfold Action, readManifest, fatalIf, println.
  exec_repo. cbn [SeedRepo.fileName].
  destruct (reply_ReadFile W h fileName) as [file rerr]. cbn [fst snd] in H.
  destruct H as [-> | [-> Hyaml]]; exec_repo; [auto|].
  destruct (yaml_Unmarshal C file) as [manifest yerr]. cbn [snd] in Hyaml. subst yerr.
  exec_repo. auto.
Qed.

(** X21.  With a manifest that is read and decoded without error, the
    action runs teardown (flag -c) or apply on the decoded manifest, whatever
    the repo held before. *)
Theorem action_runs_on_the_decoded_manifest
        (W : World) (C : Codec) (help fileName : string) (c : bool)
        (r : SeedRepo.t) (h : list Event) :
  let file := fst (reply_ReadFile W h fileName) in
  let loaded := SeedRepo.mk fileName (fst (yaml_Unmarshal C file)) in
  let run := if c then teardown W C else apply W C in
  snd (reply_ReadFile W h fileName) = None ->
  snd (yaml_Unmarshal C file) = None ->
  outcome (Action W C help (Some fileName) c r h)
  = outcome (run loaded (h ++ [ReadFile fileName])) /\
  emitted (Action W C help (Some fileName) c r h)
  = ReadFile fileName :: emitted (run loaded (h ++ [ReadFile fileName])) /\
  store (Action W C help (Some fileName) c r h)
  = store (run loaded (h ++ [ReadFile fileName])).
Proof.
  cbv zeta. intros Hread Hyaml. unfold Action, readManifest, fatalIf.
  exec_repo. cbn [SeedRepo.fileName].
  destruct (reply_ReadFile W h fileName) as [file rerr]. cbn [fst snd] in *. subst rerr.
  exec_repo.
  destruct (yaml_Unmarshal C file) as [manifest yerr]. cbn [fst snd] in *. subst yerr.
  exec_repo.
  destruct c; auto.
Qed.

(** ** More on the sample platforms *)

(** X5 on the manifest of api, which carries no broker. *)
Lemma brokerless_manifests_witness :
  (Forall (fun e => brokerless e = true)
          (emitted (apply sampleWorld sampleCodec (repoOf api) [])) /\
   calm (apply sampleWorld sampleCodec (repoOf api) [])) /\
  (Forall (fun e => brokerless e = true)
          (emitted (teardown sampleWorld sampleCodec (repoOf api) [])) /\
   calm (teardown sampleWorld sampleCodec (repoOf api) [])).
Proof.
  apply (brokerless_manifests_need_no_query sampleWorld sampleCodec (repoOf api) []).
  intros app Happ. apply list_elem_of_In in Happ. simpl in Happ.
  destruct Happ as [<-|[]]. reflexivity.
Defined.

Lemma targetless_commands_succeed h args :
  hd "" args <> "target" -> snd (reply_CliCommand targetlessWorld h args) = None.
Proof.
  destruct args as [|c args]; simpl; [reflexivity|]. intros Hc.
  destruct (String.eqb c "target") eqn:E; [|reflexivity].
  apply String.eqb_eq in E. contradiction.
Defined.

(** X6 on a platform where every target fails. *)
Lemma spaces_follow_their_target_witness :
  (outcome (createSpaces targetlessWorld (repoOf api) []) = Returned None /\
   emitted (createSpaces targetlessWorld (repoOf api) [])
   = [CliCommand ["target"; "-o"; "acme"]; CliCommand ["create-space"; "dev"]]) /\
  (outcome (deleteSpaces targetlessWorld (repoOf api) []) = Returned None /\
   emitted (deleteSpaces targetlessWorld (repoOf api) [])
   = [CliCommand ["target"; "-o"; "acme"]; CliCommand ["delete-space"; "dev"; "-f"]]).
Proof.
  exact (spaces_follow_their_target targetlessWorld (repoOf api) []
           targetless_commands_succeed).
Defined.

(** X7 on a platform where every target fails. *)
Lemma services_follow_their_target_witness :
  (outcome (createServices targetlessWorld (repoOf api) []) = Returned None /\
   emitted (createServices targetlessWorld (repoOf api) [])
   = [CliCommand ["target"; "-o"; "acme"; "-s"; "dev"];
      CliCommand ["create-service"; "postgres"; "small"; "db"]]) /\
  (outcome (deleteServices targetlessWorld (repoOf api) []) = Returned None /\
   emitted (deleteServices targetlessWorld (repoOf api) [])
   = [CliCommand ["target"; "-o"; "acme"; "-s"; "dev"];
      CliCommand ["delete-service"; "db"; "-f"]]).
Proof.
  exact (services_follow_their_target targetlessWorld (repoOf api) []
           targetless_commands_succeed).
Defined.

(** X8 on alpha, beta, gamma when beta cannot be created. *)
Lemma createOrganizations_stops_witness :
  outcome (createOrganizations pickyWorld threeOrgs []) = Returned (Some "FAILED") /\
  emitted (createOrganizations pickyWorld threeOrgs [])
  = [CliCommand ["create-org"; "alpha"]; CliCommand ["create-org"; "beta"]] /\
  outcome (apply pickyWorld sampleCodec threeOrgs []) = Exited 1 /\
  emitted (apply pickyWorld sampleCodec threeOrgs [])
  = [CliCommand ["create-org"; "alpha"]; CliCommand ["create-org"; "beta"];
     Stdout "error: FAILED"].
Proof.
  apply (createOrganizations_stops_at_first_failure pickyWorld sampleCodec threeOrgs []
           [Organization.mk "alpha" []] (Organization.mk "beta" [])
           [Organization.mk "gamma" []] "FAILED");
    [reflexivity | | reflexivity].
  intros [|i] org' Horg; simpl in Horg; [|discriminate].
  injection Horg as <-. reflexivity.
Defined.

(** X9 on the manifest of api: the push comes after create-org acme and
    create-space dev. *)
Lemma apply_creates_top_down_witness :
  let pre := [CliCommand ["create-org"; "acme"];
              CliCommand ["target"; "-o"; "acme"];
              CliCommand ["create-space"; "dev"];
              CliCommand ["target"; "-o"; "acme"; "-s"; "dev"]] in
  emitted (apply sampleWorld sampleCodec (repoOf api) [])
  = pre ++ [CliCommand ["push"; "api"; "-p"; "./api"];
            CliCommand ["target"; "-o"; "acme"; "-s"; "dev"];
            CliCommand ["create-service"; "postgres"; "small"; "db"]] /\
  create_org (acmeOf api) ∈ pre /\ create_space (devOf api) ∈ pre.
Proof.
  cbv zeta.
  match goal with |- _ = ?p ++ ?q /\ _ => set (pre := p); set (post := tl q) end.
  split; [reflexivity|].
  destruct (apply_creates_top_down sampleWorld sampleCodec (repoOf api) []) as [_ Hpush].
  apply (Hpush pre "push" ["api"; "-p"; "./api"] post eq_refl (or_introl eq_refl)
               (acmeOf api) (devOf api));
    apply list_elem_of_here.
Defined.

(** X10 on the manifest of api: delete-space dev comes after the
    deletion of api and of db. *)
Lemma teardown_deletes_bottom_up_witness :
  let pre := [CliCommand ["target"; "-o"; "acme"; "-s"; "dev"];
              CliCommand ["delete"; "api"; "-f"; "-r"];
              CliCommand ["target"; "-o"; "acme"; "-s"; "dev"];
              CliCommand ["delete-service"; "db"; "-f"];
              CliCommand ["target"; "-o"; "acme"]] in
  emitted (teardown sampleWorld sampleCodec (repoOf api) [])
  = pre ++ [CliCommand ["delete-space"; "dev"; "-f"];
            CliCommand ["delete-org"; "acme"; "-f"]] /\
  delete_app api ∈ pre /\ delete_service db ∈ pre.
Proof.
  cbv zeta.
  match goal with |- _ = ?p ++ ?q /\ _ => set (pre := p); set (post := tl q) end.
  split; [reflexivity|].
  destruct (teardown_deletes_bottom_up sampleWorld sampleCodec (repoOf api) [])
    as [_ Hspace].
  destruct (Hspace pre ["dev"; "-f"] post eq_refl (acmeOf api) (devOf api))
    as [Happ Hservice]; [apply list_elem_of_here | apply list_elem_of_here |].
  split; [apply Happ | apply Hservice]; apply list_elem_of_here.
Defined.

(** X11 in the scenario, where the route resolves to api.example.com:
    the broker b1 is created there, then s1 is enabled. *)
Lemma registration_creates_then_enables_witness :
  outcome ((getAppInfo sampleWorld sampleCodec apiBroker
              ≫= firstAppRoute sampleWorld sampleCodec) scenarioRepo [])
  = Returned ("api.example.com", None) /\
  List.filter is_CliCommand
              (emitted (setAppAsService sampleWorld sampleCodec apiBroker scenarioRepo []))
  = [CliCommand ["create-service-broker"; "b1"; "u"; "p"; "https://api.example.com"];
     CliCommand ["enable-service-access"; "s1"; "-p"; "free"]].
Proof.
  split; [reflexivity|].
  pose proof (registration_creates_then_enables sampleWorld sampleCodec apiBroker
                scenarioRepo []) as H.
  cbv zeta in H.
  change (outcome ((getAppInfo sampleWorld sampleCodec apiBroker
                      ≫= firstAppRoute sampleWorld sampleCodec) scenarioRepo []))
    with (@Returned (string * option error) ("api.example.com", None)) in H.
  cbv iota beta in H. destruct H as (k & Hcalls & Hk).
  rewrite Hcalls, (Hk eq_refl). reflexivity.
Defined.

(** X12 when api has lost its routes. *)
Lemma no_routes_stops_the_broker_lifecycle_witness :
  (outcome (setAppAsService routelessWorld sampleCodec apiBroker scenarioRepo [])
   = Returned (Some "App 'api' has no routes") /\
   emitted (setAppAsService routelessWorld sampleCodec apiBroker scenarioRepo [])
   = [SpaceFields; curl (appQuery "space-1" "api"); curl "/v2/apps/app-1";
      curl "/v2/apps/app-1/routes"]) /\
  (outcome (deleteAppAsService routelessWorld sampleCodec apiBroker scenarioRepo [])
   = Returned (Some "App 'api' has no routes") /\
   emitted (deleteAppAsService routelessWorld sampleCodec apiBroker scenarioRepo [])
   = [SpaceFields; curl (appQuery "space-1" "api"); curl "/v2/apps/app-1";
      curl "/v2/apps/app-1/routes"]).
Proof.
  apply (no_routes_stops_the_broker_lifecycle routelessWorld sampleCodec apiBroker
           scenarioRepo [] "space-1" (PaginatedApplicationResources.mk [apiFound])
           apiFound [] apiInfo (ListAllRoutesForTheApp.mk 0 []));
    reflexivity.
Defined.

(** X13 when the configuration cannot be read. *)
Lemma unreadable_configuration_witness :
  (outcome (setAppAsService noConfigWorld sampleCodec apiBroker scenarioRepo []) = Exited 1 /\
   emitted (setAppAsService noConfigWorld sampleCodec apiBroker scenarioRepo [])
   = [SpaceFields; Stdout "error: config.json: permission denied"]) /\
  (outcome (deleteAppAsService noConfigWorld sampleCodec apiBroker scenarioRepo [])
   = Exited 1 /\
   emitted (deleteAppAsService noConfigWorld sampleCodec apiBroker scenarioRepo [])
   = [SpaceFields; Stdout "error: config.json: permission denied"]).
Proof.
  apply (unreadable_configuration_exits noConfigWorld sampleCodec apiBroker scenarioRepo []
           "config.json: permission denied").
  reflexivity.
Defined.

(** X14 with a routes answer of two entries and no resource. *)
Lemma counted_but_missing_route_witness :
  outcome (firstAppRoute sampleWorld oddCodec (Some apiInfo) scenarioRepo [])
  = Panicked "index out of range" /\
  emitted (firstAppRoute sampleWorld oddCodec (Some apiInfo) scenarioRepo [])
  = [curl "/v2/apps/app-1/routes"].
Proof.
  apply (counted_but_missing_route_panics sampleWorld oddCodec apiInfo scenarioRepo []
           (ListAllRoutesForTheApp.mk 2 []));
    [reflexivity | simpl; lia | reflexivity].
Defined.

(** X15 with a routes answer that is null. *)
Lemma null_answers_witness :
  outcome (firstAppRoute sampleWorld nullCodec (Some apiInfo) scenarioRepo [])
  = Panicked "invalid memory address or nil pointer dereference" /\
  emitted (firstAppRoute sampleWorld nullCodec (Some apiInfo) scenarioRepo [])
  = [curl "/v2/apps/app-1/routes"].
Proof.
  destruct (null_answers_panic sampleWorld nullCodec apiInfo scenarioRepo []) as [_ Hnull].
  apply Hnull. reflexivity.
Defined.

(** X16 without git. *)
Lemma deployApp_without_git_witness :
  outcome (deployApp gitlessWorld apiRepo scenarioRepo [])
  = Returned (Some "executable file not found in $PATH") /\
  emitted (deployApp gitlessWorld apiRepo scenarioRepo [])
  = [Getwd; MkdirAll "/home/seed/apps/api"; ReadDir "/home/seed/apps/api"; LookPath "git"].
Proof.
  apply (deployApp_without_git_is_an_error gitlessWorld apiRepo scenarioRepo [] "");
    [simpl; discriminate | reflexivity | reflexivity].
Defined.

(** X17 with a clone that fails. *)
Lemma deployApp_swallows_a_failed_clone_witness :
  outcome (deployApp cloneFailWorld apiRepo scenarioRepo []) = Returned None /\
  emitted (deployApp cloneFailWorld apiRepo scenarioRepo [])
  = [Getwd; MkdirAll "/home/seed/apps/api"; ReadDir "/home/seed/apps/api"; LookPath "git";
     CommandRun "/usr/bin/git"
                ["clone"; "https://example.com/api.git"; "/home/seed/apps/api"]].
Proof.
  apply (deployApp_swallows_a_failed_clone cloneFailWorld apiRepo scenarioRepo []
           "/usr/bin/git" "exit status 128");
    [simpl; discriminate | reflexivity | reflexivity | reflexivity].
Defined.

(** X18 with a clone that succeeds. *)
Lemma deployApp_clones_then_pushes_witness :
  outcome (deployApp freshWorld apiRepo scenarioRepo []) = Returned None /\
  emitted (deployApp freshWorld apiRepo scenarioRepo [])
  = [Getwd; MkdirAll "/home/seed/apps/api"; ReadDir "/home/seed/apps/api"; LookPath "git";
     CommandRun "/usr/bin/git"
                ["clone"; "https://example.com/api.git"; "/home/seed/apps/api"];
     CliCommand ["push"; "api"; "-p"; "/home/seed/apps/api"; "-m"; "256M"]].
Proof.
  apply (deployApp_clones_then_pushes freshWorld apiRepo scenarioRepo [] "/usr/bin/git");
    [simpl; discriminate | reflexivity | reflexivity | reflexivity].
Defined.

(** X19 on an application with every optional field set. *)
Lemma deployApp_pushes_the_path_witness :
  emitted (deployApp sampleWorld apiFull scenarioRepo [])
  = [CliCommand ["push"; "api"; "-p"; "./api"; "-k"; "1G"; "-m"; "256M"; "-i"; "2";
                 "-n"; "api"; "-d"; "example.com"; "-b"; "go_buildpack";
                 "-f"; "manifest.yml"]] /\
  outcome (deployApp sampleWorld apiFull scenarioRepo []) = Returned None /\
  store (deployApp sampleWorld apiFull scenarioRepo []) = scenarioRepo.
Proof.
  apply (deployApp_pushes_the_path sampleWorld apiFull scenarioRepo []);
    [reflexivity | simpl; discriminate].
Defined.

(** X20 with a manifest file that cannot be read. *)
Lemma no_manifest_no_run_witness :
  outcome (Action unreadableWorld sampleCodec "usage" (Some "seed.yml") false scenarioRepo [])
  = Exited 1 /\
  emitted (Action unreadableWorld sampleCodec "usage" (Some "seed.yml") false scenarioRepo [])
  = [ReadFile "seed.yml"; Stdout "error: open seed.yml: no such file or directory"].
Proof.
  apply (no_manifest_no_run unreadableWorld sampleCodec "usage" "seed.yml" false
           scenarioRepo [] "open seed.yml: no such file or directory").
  left. reflexivity.
Defined.

(** X21 with a manifest file that decodes to the manifest of api: the
    action with -c tears it down, whatever the repo held. *)
Lemma action_runs_on_the_decoded_manifest_witness :
  emitted (Action sampleWorld apiCodec "usage" (Some "seed.yml") true scenarioRepo [])
  = [ReadFile "seed.yml";
     CliCommand ["target"; "-o"; "acme"; "-s"; "dev"];
     CliCommand ["delete"; "api"; "-f"; "-r"];
     CliCommand ["target"; "-o"; "acme"; "-s"; "dev"];
     CliCommand ["delete-service"; "db"; "-f"];
     CliCommand ["target"; "-o"; "acme"];
     CliCommand ["delete-space"; "dev"; "-f"];
     CliCommand ["delete-org"; "acme"; "-f"]].
Proof.
  destruct (action_runs_on_the_decoded_manifest sampleWorld apiCodec "usage" "seed.yml" true
              scenarioRepo [] eq_refl eq_refl) as (_ & Hrun & _).
  exact Hrun.
Defined.
